(** * An in-memory item store and its input validation

    Shallow embedding of [app/core/security.py], [app/models/item.py] and
    [app/services/item_service.py], followed by the properties of the
    validation functions and of the store.

    Conventions of the embedding:
    - a Python [str] is a list of Unicode code points ([pystr]);
    - a Python [int] is a [Z]; a [datetime] is an abstract tick count, and
      every call of [datetime.utcnow()] is an explicit argument [now];
    - a method of [ItemService] takes the service state and returns its
      outcome together with the state it leaves behind, also when it raises;
    - a [dict] is a [gmap]: the only iteration over a dict in the source is
      followed by a sort on the (unique) item ids. *)

From Stdlib Require Import ZArith NArith String Ascii.
From stdpp Require Import base decidable option list gmap fin_maps sorting relations.

Open Scope Z_scope.

(** ** Python strings *)

Module Py.

Definition char := N.
Definition pystr := list N.

(** Code points of a Latin-1 literal, to write examples legibly. *)
Definition lit (s : string) : pystr :=
  List.map N_of_ascii (list_ascii_of_string s).

Definition len {A} (l : list A) : Z := Z.of_nat (length l).

(** [str.isspace] on one code point (CPython's [_PyUnicode_IsWhitespace]). *)
Definition isspace (c : char) : bool :=
  ((0x09 <=? c) && (c <=? 0x0D) || (0x1C <=? c) && (c <=? 0x20)
   || (c =? 0x85) || (c =? 0xA0) || (c =? 0x1680)
   || (0x2000 <=? c) && (c <=? 0x200A)
   || (c =? 0x2028) || (c =? 0x2029) || (c =? 0x202F)
   || (c =? 0x205F) || (c =? 0x3000))%N.

Fixpoint lstrip (s : pystr) : pystr :=
  match s with
  | c :: s' => if isspace c then lstrip s' else s
  | [] => []
  end.

Definition rstrip (s : pystr) : pystr := reverse (lstrip (reverse s)).

(** [s.strip()] *)
Definition strip (s : pystr) : pystr := rstrip (lstrip s).

(** [s.startswith(p)] *)
Fixpoint startswith (p s : pystr) : bool :=
  match p, s with
  | [], _ => true
  | a :: p', b :: s' => (a =? b)%N && startswith p' s'
  | _ :: _, [] => false
  end.

(** [s.endswith(p)] *)
Definition endswith (p s : pystr) : bool :=
  startswith (reverse p) (reverse s).

(** [p in s] *)
Fixpoint contains (p s : pystr) : bool :=
  startswith p s ||
  match s with
  | [] => false
  | _ :: s' => contains p s'
  end.

(** Index adjustment of a slice bound ([PySlice_AdjustIndices], step 1). *)
Definition adjust_index (n i : Z) : Z :=
  if i <? 0 then Z.max 0 (i + n) else Z.min i n.

(** [l[start:stop]] *)
Definition slice {A} (l : list A) (start stop : Z) : list A :=
  let lo := adjust_index (len l) start in
  let hi := adjust_index (len l) stop in
  take (Z.to_nat (hi - lo)) (drop (Z.to_nat lo) l).

End Py.

Import Py.

(** ** app/core/security.py *)

Module Security.

(** The class [[\x00-\x1f\x7f-\x9f]]. *)
Definition is_control (c : char) : bool :=
  ((c <=? 0x1F) || (0x7F <=? c) && (c <=? 0x9F))%N.

(** [re.sub(r"[\x00-\x1f\x7f-\x9f]", "", s)] *)
Definition remove_control (s : pystr) : pystr :=
  List.filter (fun c => negb (is_control c)) s.

Definition sanitize_string (value : pystr) (max_length : Z) : pystr :=
  if bool_decide (value = []) then []
  else
    let sanitized := strip value in
    let sanitized := remove_control sanitized in
    if bool_decide (len sanitized > max_length)
    then slice sanitized 0 max_length
    else sanitized.

(** The class [[a-z0-9-]]. *)
Definition is_slug_char (c : char) : bool :=
  ((0x61 <=? c) && (c <=? 0x7A) || (0x30 <=? c) && (c <=? 0x39)
   || (c =? 0x2D))%N.

(** [cls+] followed by the rest [k] of a pattern: greedy, with
    backtracking to shorter repetitions. *)
Fixpoint re_plus (cls : char -> bool) (k : pystr -> bool) (s : pystr) : bool :=
  match s with
  | c :: s' => cls c && (re_plus cls k s' || k s')
  | [] => false
  end.

(** [$] without [re.MULTILINE]: holds at the end of the string and also
    just before a newline that is the last character of the string. *)
Definition re_dollar (s : pystr) : bool :=
  bool_decide (s = []) || bool_decide (s = [0x0A%N]).

(** [re.match(r"^[a-z0-9-]+$", value)] is not [None] ([re.match] starts at
    position 0, where [^] holds). *)
Definition re_match_slug (value : pystr) : bool :=
  re_plus is_slug_char re_dollar value.

(** The four messages of the [ValueError] raised by [validate_slug]. *)
Inductive slug_error :=
| SlugEmpty            (* "Slug cannot be empty" *)
| SlugCharset          (* "Slug must contain only lowercase letters, ..." *)
| SlugEdgeHyphen       (* "Slug cannot start or end with a hyphen" *)
| SlugDoubleHyphen.    (* "Slug cannot contain consecutive hyphens" *)

Definition validate_slug (value : pystr) : slug_error + pystr :=
  if bool_decide (value = []) then inl SlugEmpty
  else if negb (re_match_slug value) then inl SlugCharset
  else if startswith (lit "-") value || endswith (lit "-") value
       then inl SlugEdgeHyphen
  else if contains (lit "--") value then inl SlugDoubleHyphen
  else inr value.

End Security.

Import Security.

(** ** app/models/item.py *)

Module Models.

Definition datetime := Z.

Inductive field := Fname | Fslug | Fdescription.

(** The kinds of error a pydantic [ValidationError] lists here: the two
    length constraints of [Field(...)], and a [ValueError] raised by a
    field validator. *)
Inductive error_type :=
| string_too_short
| string_too_long
| value_error (e : slug_error).

Definition error_details := list (field * error_type).

(** A [str] field declared [Field(..., min_length, max_length)] with a
    [field_validator] (mode "after"): the constraints are checked on the
    value given, then the validator runs on it. *)
Definition str_field (f : field) (min_length : option Z) (max_length : Z)
    (validator : pystr -> slug_error + pystr) (v : pystr)
    : error_details + pystr :=
  if match min_length with
     | Some m => bool_decide (len v < m)
     | None => false
     end
  then inl [(f, string_too_short)]
  else if bool_decide (len v > max_length) then inl [(f, string_too_long)]
  else match validator v with
       | inl e => inl [(f, value_error e)]
       | inr v' => inr v'
       end.

(** The same for a field of type [str | None]: [None] meets the
    constraints, and the validators of this file map it to [None]. *)
Definition opt_str_field (f : field) (min_length : option Z) (max_length : Z)
    (validator : pystr -> slug_error + pystr) (v : option pystr)
    : error_details + option pystr :=
  match v with
  | None => inr None
  | Some v => match str_field f min_length max_length validator v with
              | inl e => inl e
              | inr v' => inr (Some v')
              end
  end.

Definition errors_of {A} (r : error_details + A) : error_details :=
  match r with inl e => e | inr _ => [] end.

Definition sanitize_name (v : pystr) : slug_error + pystr :=
  inr (sanitize_string v 200).
Definition validate_slug_field (v : pystr) : slug_error + pystr :=
  validate_slug v.
Definition sanitize_description (v : pystr) : slug_error + pystr :=
  inr (sanitize_string v 1000).

(** The three fields of [ItemBase]; pydantic validates every field and
    reports the errors of all of them, in the order of declaration. *)
Definition ItemBase_fields (name slug : pystr) (description : option pystr)
    : error_details + (pystr * pystr * option pystr) :=
  let rn := str_field Fname (Some 1) 200 sanitize_name name in
  let rs := str_field Fslug (Some 1) 100 validate_slug_field slug in
  let rd := opt_str_field Fdescription None 1000 sanitize_description
              description in
  match rn, rs, rd with
  | inr n, inr s, inr d => inr (n, s, d)
  | _, _, _ => inl (errors_of rn ++ errors_of rs ++ errors_of rd)
  end.

Module ItemCreate.
Record t := mk { name : pystr; slug : pystr; description : option pystr }.

(** [ItemCreate(name=.., slug=.., description=..)] *)
Definition new (name slug : pystr) (description : option pystr)
    : error_details + t :=
  match ItemBase_fields name slug description with
  | inl e => inl e
  | inr (n, s, d) => inr (mk n s d)
  end.
End ItemCreate.

Module ItemUpdate.
(** Each field records whether it was set ([model_fields_set]) and, if
    so, its value, which may be [None]; a field not set has its default
    [None] and is left out by [model_dump(exclude_unset=True)]. *)
Record t := mk { name : option (option pystr);
                 description : option (option pystr) }.

Definition set_field (f : field) (min_length : option Z) (max_length : Z)
    (validator : pystr -> slug_error + pystr) (v : option (option pystr))
    : error_details + option (option pystr) :=
  match v with
  | None => inr None
  | Some v => match opt_str_field f min_length max_length validator v with
              | inl e => inl e
              | inr v' => inr (Some v')
              end
  end.

(** [ItemUpdate(...)] with the keyword arguments that are [Some]. *)
Definition new (name description : option (option pystr))
    : error_details + t :=
  let rn := set_field Fname (Some 1) 200 sanitize_name name in
  let rd := set_field Fdescription None 1000 sanitize_description
              description in
  match rn, rd with
  | inr n, inr d => inr (mk n d)
  | _, _ => inl (errors_of rn ++ errors_of rd)
  end.
End ItemUpdate.

Module Item.
(** [name] is declared [str], but attribute assignment is not validated
    (no [validate_assignment]), so at run time it holds whatever
    [update_item] assigned, [None] included. *)
Record t := mk { id : Z;
                 name : option pystr;
                 slug : pystr;
                 description : option pystr;
                 created_at : datetime;
                 updated_at : datetime }.

(** [Item(id=.., name=.., slug=.., description=.., created_at=..,
    updated_at=..)]: [Item] inherits the fields and the validators of
    [ItemBase], which run again on the values given. *)
Definition new (id : Z) (name slug : pystr) (description : option pystr)
    (created_at updated_at : datetime) : error_details + t :=
  match ItemBase_fields name slug description with
  | inl e => inl e
  | inr (n, s, d) => inr (mk id (Some n) s d created_at updated_at)
  end.

(** [setattr(item, "name", v)], [setattr(item, "description", v)],
    [item.updated_at = v] *)
Definition set_name (v : option pystr) (i : t) : t :=
  mk (id i) v (slug i) (description i) (created_at i) (updated_at i).
Definition set_description (v : option pystr) (i : t) : t :=
  mk (id i) (name i) (slug i) v (created_at i) (updated_at i).
Definition set_updated_at (v : datetime) (i : t) : t :=
  mk (id i) (name i) (slug i) (description i) (created_at i) v.
End Item.

End Models.

Import Models.

(** ** app/services/item_service.py *)

Module Service.

Inductive exn :=
| DuplicateSlug (slug : pystr)
    (* ValueError("Item with slug '...' already exists") *)
| ValidationError (errors : error_details)
    (* raised by the constructor of Item *)
| KeyError (key : pystr).
    (* del on a key the dict does not hold *)

Inductive outcome (A : Type) :=
| Return (a : A)
| Raise (e : exn).
Arguments Return {A} a.
Arguments Raise {A} e.

Record ItemService := mk {
  _items : gmap Z Item.t;
  _next_id : Z;
  _slug_index : gmap pystr Z
}.

(** [ItemService()] *)
Definition init : ItemService := mk ∅ 1 ∅.

Definition create_item (now : datetime) (data : ItemCreate.t)
    (self : ItemService) : outcome Item.t * ItemService :=
  if bool_decide (is_Some (_slug_index self !! ItemCreate.slug data))
  then (Raise (DuplicateSlug (ItemCreate.slug data)), self)
  else
    match Item.new (_next_id self) (ItemCreate.name data)
            (ItemCreate.slug data) (ItemCreate.description data) now now with
    | inl errors => (Raise (ValidationError errors), self)
    | inr item =>
        (Return item,
         mk (<[Item.id item := item]> (_items self))
            (_next_id self + 1)
            (<[Item.slug item := Item.id item]> (_slug_index self)))
    end.

Definition get_item (item_id : Z) (self : ItemService) : option Item.t :=
  _items self !! item_id.

Definition get_item_by_slug (slug : pystr) (self : ItemService)
    : option Item.t :=
  match _slug_index self !! slug with
  | None => None
  | Some item_id => _items self !! item_id
  end.

Definition id_le (a b : Item.t) : Prop := Item.id a ≤ Item.id b.
Global Instance id_le_dec : RelDecision id_le.
Proof. intros a b. unfold id_le. apply _. Defined.

(** [self._items.values()]; the order of the values is lost by the map,
    and restored by the sort wherever the items have distinct ids. *)
Definition values (self : ItemService) : list Item.t :=
  (map_to_list (_items self)).*2.

(** [sorted(self._items.values(), key=lambda x: x.id)] *)
Definition all_items (self : ItemService) : list Item.t :=
  merge_sort id_le (values self).

Definition list_items (skip limit : Z) (self : ItemService) : list Item.t :=
  slice (all_items self) skip (skip + limit).

(** The loop over [data.model_dump(exclude_unset=True).items()]. *)
Definition apply_update (data : ItemUpdate.t) (item : Item.t) : Item.t :=
  let item := match ItemUpdate.name data with
              | Some value => Item.set_name value item
              | None => item
              end in
  match ItemUpdate.description data with
  | Some value => Item.set_description value item
  | None => item
  end.

(** The item is changed in place: the object the dict holds under
    [item_id] is the one returned. *)
Definition update_item (now : datetime) (item_id : Z) (data : ItemUpdate.t)
    (self : ItemService) : option Item.t * ItemService :=
  match _items self !! item_id with
  | None => (None, self)
  | Some item =>
      let item := apply_update data item in
      let item := Item.set_updated_at now item in
      (Some item,
       mk (<[item_id := item]> (_items self)) (_next_id self)
          (_slug_index self))
  end.

Definition delete_item (item_id : Z) (self : ItemService)
    : outcome bool * ItemService :=
  match _items self !! item_id with
  | None => (Return false, self)
  | Some item =>
      let self := mk (delete item_id (_items self)) (_next_id self)
                     (_slug_index self) in
      match _slug_index self !! Item.slug item with
      | None => (Raise (KeyError (Item.slug item)), self)
      | Some _ =>
          (Return true,
           mk (_items self) (_next_id self)
              (delete (Item.slug item) (_slug_index self)))
      end
  end.

(** One mutating call on the service, and the states a service can be in. *)
Inductive step : ItemService -> ItemService -> Prop :=
| step_create now data s : step s (create_item now data s).2
| step_update now item_id data s : step s (update_item now item_id data s).2
| step_delete item_id s : step s (delete_item item_id s).2.

Definition reachable (s : ItemService) : Prop := rtc step init s.

End Service.

Import Service.

(** ** app/api/v1/items.py *)

Module Api.

(** The [detail] of an [HTTPException]: a literal, or [str(e)]. *)
Inductive detail :=
| Text (s : pystr)
| Str (e : exn).

(** What a route raises: an [HTTPException], or an exception of the service
    that no [except] clause of the route catches. *)
Inductive raised :=
| HTTPException (status_code : Z) (d : detail)
| Uncaught (e : exn).

Inductive reply (A : Type) :=
| Returns (a : A)
| Raises (r : raised).
Arguments Returns {A} a.
Arguments Raises {A} r.

Definition HTTP_404_NOT_FOUND : Z := 404.
Definition HTTP_409_CONFLICT : Z := 409.

(** [isinstance(e, ValueError)]: the error of [create_item] is a
    [ValueError], pydantic's [ValidationError] is a subclass of it, and
    [KeyError] is not. *)
Definition is_ValueError (e : exn) : bool :=
  match e with
  | DuplicateSlug _ => true
  | ValidationError _ => true
  | KeyError _ => false
  end.

Definition not_found {A} : reply A :=
  Raises (HTTPException HTTP_404_NOT_FOUND (Text (lit "Item not found"))).

(** The routes work on the module-level [item_service]. *)
Definition create_item (now : datetime) (data : ItemCreate.t)
    (item_service : ItemService) : reply Item.t * ItemService :=
  match Service.create_item now data item_service with
  | (Return item, s) => (Returns item, s)
  | (Raise e, s) =>
      if is_ValueError e
      then (Raises (HTTPException HTTP_409_CONFLICT (Str e)), s)
      else (Raises (Uncaught e), s)
  end.

Definition list_items (skip limit : Z) (item_service : ItemService)
    : list Item.t :=
  Service.list_items skip limit item_service.

Definition get_item (item_id : Z) (item_service : ItemService)
    : reply Item.t :=
  match Service.get_item item_id item_service with
  | None => not_found
  | Some item => Returns item
  end.

Definition get_item_by_slug (slug : pystr) (item_service : ItemService)
    : reply Item.t :=
  match Service.get_item_by_slug slug item_service with
  | None => not_found
  | Some item => Returns item
  end.

Definition update_item (now : datetime) (item_id : Z) (data : ItemUpdate.t)
    (item_service : ItemService) : reply Item.t * ItemService :=
  match Service.update_item now item_id data item_service with
  | (None, s) => (not_found, s)
  | (Some item, s) => (Returns item, s)
  end.

Definition delete_item (item_id : Z) (item_service : ItemService)
    : reply unit * ItemService :=
  match Service.delete_item item_id item_service with
  | (Return deleted, s) =>
      if negb deleted then (not_found, s) else (Returns tt, s)
  | (Raise e, s) => (Raises (Uncaught e), s)
  end.

End Api.

(** * Vocabulary of the properties *)

(** ** Slugs *)

Definition all_slug_chars (s : pystr) : Prop :=
  Forall (fun c => is_slug_char c = true) s.

(** The slug has one of the defects the four checks look for. *)
Definition slug_defect (v : pystr) : Prop :=
  v = [] ∨ (∃ c, c ∈ v ∧ is_slug_char c = false)
  ∨ startswith (lit "-") v = true ∨ endswith (lit "-") v = true
  ∨ contains (lit "--") v = true.

(** ** The store invariant *)

(** The slug passes the [slug] field of [ItemBase] as it is. *)
Definition slug_ok (sl : pystr) : Prop :=
  str_field Fslug (Some 1) 100 validate_slug_field sl = inr sl.

(** The invariant as the operations maintain it: besides the agreement of
    the two dicts, every item is stored under its own id, ids already
    handed out lie below the counter, and stored slugs are well formed. *)
Record store_inv (s : ItemService) : Prop := {
  inv_items : ∀ i it, _items s !! i = Some it →
      Item.id it = i ∧ _slug_index s !! Item.slug it = Some i
      ∧ 0 < i < _next_id s ∧ slug_ok (Item.slug it);
  inv_index : ∀ sl i, _slug_index s !! sl = Some i →
      ∃ it, _items s !! i = Some it ∧ Item.slug it = sl;
  inv_next : 0 < _next_id s
}.

(** The agreement of the two dicts. *)
Record indexes_consistent (s : ItemService) : Prop := {
  ic_primary : ∀ i it, _items s !! i = Some it →
      _slug_index s !! Item.slug it = Some i;
  ic_secondary : ∀ sl i, _slug_index s !! sl = Some i →
      ∃ it, _items s !! i = Some it ∧ Item.slug it = sl;
  ic_unique : ∀ i j a b, _items s !! i = Some a → _items s !! j = Some b →
      Item.slug a = Item.slug b → i = j
}.

(** ** Sample inputs and states *)

(** The item of the scenario in the test suite, and the store holding it. *)
Definition sample : ItemCreate.t :=
  ItemCreate.mk (lit "Sample Item") (lit "sample-item")
                (Some (lit "A sample item for testing")).

Definition one_item : ItemService := (create_item 10 sample init).2.

(** The name [" \x01 a"]: sanitizing it once leaves [" a"]. *)
Definition spaced_name : pystr := [0x20; 0x01; 0x20]%N ++ lit "a".

(** Two items created one after the other, as in the test suite. *)
Definition item_1 : ItemCreate.t := ItemCreate.mk (lit "Item 1") (lit "item-1") None.
Definition item_2 : ItemCreate.t := ItemCreate.mk (lit "Item 2") (lit "item-2") None.
Definition two_items : ItemService :=
  (create_item 11 item_2 (create_item 10 item_1 init).2).2.

(** The items of the pagination test: [Item i] with slug [item-i], for a
    digit [i], created in the order given. *)
Definition numbered (i : N) : ItemCreate.t :=
  ItemCreate.mk (lit "Item " ++ [0x30 + i]%N) (lit "item-" ++ [0x30 + i]%N) None.

Definition create_all (digits : list N) : ItemService :=
  foldl (fun s i => (create_item (Z.of_N i) (numbered i) s).2) init digits.

Definition ten_items : ItemService := create_all [0; 1; 2; 3; 4; 5; 6; 7; 8; 9]%N.

(** ** Shapes of a slug *)

(** The text matches the pattern: a run of class characters, then nothing
    or one final newline. *)
Definition slug_shape (v : pystr) : Prop :=
  ∃ body, body ≠ [] ∧ all_slug_chars body ∧ (v = body ∨ v = body ++ [0x0A%N]).

Definition edge_hyphen (v : pystr) : Prop :=
  head v = Some 0x2D%N ∨ last v = Some 0x2D%N.

Definition double_hyphen (v : pystr) : Prop :=
  ∃ l r, v = l ++ [0x2D; 0x2D]%N ++ r.

(** ** Sizes *)

(** The sizes of the two dicts, and the ids handed out. *)
Definition sizes_agree (s : ItemService) : Prop :=
  size (_slug_index s) = size (_items s)
  ∧ Z.of_nat (size (_items s)) < _next_id s.

(** ** Runs under a clock *)

(** [run t s]: the service has reached [s] by calls whose clock readings
    never went back, the last of them being at most [t]. *)
Inductive run : datetime -> ItemService -> Prop :=
| run_init t : run t init
| run_wait t t' s : run t s -> t ≤ t' -> run t' s
| run_create t now data s :
    run t s -> t ≤ now -> run now (create_item now data s).2
| run_update t now item_id data s :
    run t s -> t ≤ now -> run now (update_item now item_id data s).2
| run_delete t item_id s : run t s -> run t (delete_item item_id s).2.

(** What [sanitize_string] does before it truncates. *)
Definition clean (v : pystr) : pystr := remove_control (strip v).

(** A name that survives one sanitization as a single space: [ItemCreate]
    holds [" "] for it. *)
Definition blank_name : pystr := [0x01; 0x20; 0x01]%N.

(** * Properties *)

(** ** Strings *)

Section strings.

Lemma len_nonneg {A} (l : list A) : 0 ≤ len l.
Proof. unfold len. lia. Qed.

Lemma slice_empty_range {A} (l : list A) (i : Z) : slice l i i = [].
Proof. unfold slice. by rewrite Z.sub_diag. Qed.

Lemma slice_window {A} (l : list A) (start size : Z) :
  0 ≤ start → 0 ≤ size →
  slice l start (start + size) = take (Z.to_nat size) (drop (Z.to_nat start) l).
Proof.
  intros Hs Hn. unfold slice, adjust_index, len.
  rewrite (proj2 (Z.ltb_ge start 0)), (proj2 (Z.ltb_ge (start + size) 0)) by lia.
  set (n := Z.of_nat (length l)).
  destruct (decide (start ≤ n)) as [Hin|Hout].
  - rewrite (Z.min_l start n) by lia.
    destruct (decide (start + size ≤ n)).
    + f_equal. lia.
    + rewrite !take_ge; [done|rewrite length_drop; lia..].
  - rewrite drop_ge, (drop_ge l (Z.to_nat start)) by lia. by rewrite !take_nil.
Qed.

Lemma slice_prefix {A} (l : list A) (m : Z) :
  0 ≤ m → slice l 0 m = take (Z.to_nat m) l.
Proof. intros Hm. by apply (slice_window l 0 m). Qed.

Lemma lstrip_spec (s : pystr) :
  ∃ l, s = l ++ lstrip s ∧ Forall (fun c => isspace c = true) l
       ∧ ∀ c, head (lstrip s) = Some c → isspace c = false.
Proof.
  induction s as [|c s (l & Heq & Hl & Hh)]; cbn [lstrip].
  - exists []. split_and!; [done|constructor|done].
  - destruct (isspace c) eqn:Hc.
    + exists (c :: l). split_and!; [by rewrite Heq at 1|by constructor|done].
    + exists []. split_and!; [done|constructor|]. intros c' [= <-]. done.
Qed.

Lemma rstrip_spec (s : pystr) :
  ∃ r, s = rstrip s ++ r ∧ Forall (fun c => isspace c = true) r
       ∧ ∀ c, last (rstrip s) = Some c → isspace c = false.
Proof.
  destruct (lstrip_spec (reverse s)) as (l & Heq & Hl & Hh). unfold rstrip.
  exists (reverse l). split_and!.
  - by rewrite <- reverse_app, <- Heq, reverse_involutive.
  - by apply Forall_reverse.
  - intros c. rewrite last_reverse. apply Hh.
Qed.

(** [strip] removes a run of whitespace at each end, and what is left
    neither starts nor ends with whitespace. *)
Lemma strip_spec (s : pystr) :
  ∃ l r, s = l ++ strip s ++ r
         ∧ Forall (fun c => isspace c = true) l
         ∧ Forall (fun c => isspace c = true) r
         ∧ (∀ c, head (strip s) = Some c → isspace c = false)
         ∧ (∀ c, last (strip s) = Some c → isspace c = false).
Proof.
  destruct (lstrip_spec s) as (l & Hl & Hsl & Hh).
  destruct (rstrip_spec (lstrip s)) as (r & Hr & Hsr & Ht).
  exists l, r. unfold strip. split_and!.
  - by rewrite <- Hr.
  - done.
  - done.
  - intros c Hc. apply Hh. rewrite Hr. by destruct (rstrip (lstrip s)).
  - done.
Qed.

Lemma strip_nil : strip [] = [].
Proof. reflexivity. Qed.

Lemma elem_of_remove_control (c : char) (s : pystr) :
  c ∈ remove_control s ↔ c ∈ s ∧ is_control c = false.
Proof.
  unfold remove_control. rewrite !list_elem_of_In, filter_In.
  by rewrite negb_true_iff.
Qed.

Lemma remove_control_sublist (s : pystr) : sublist (remove_control s) s.
Proof.
  induction s as [|c s IH]; cbn; [constructor|].
  destruct (is_control c); cbn; by constructor.
Qed.

Lemma sanitize_string_pipeline (value : pystr) (max_length : Z) :
  0 ≤ max_length →
  sanitize_string value max_length
  = take (Z.to_nat max_length) (remove_control (strip value)).
Proof.
  intros Hm. unfold sanitize_string.
  case_bool_decide as Hv; [subst; by destruct (Z.to_nat max_length)|].
  case_bool_decide as Hlen; [by apply slice_prefix|].
  rewrite take_ge; [done|]. unfold len in Hlen. lia.
Qed.

End strings.

(** ** validate_slug *)

Section slug.

(** What the pattern [^[a-z0-9-]+$] accepts. *)
Lemma re_match_slug_spec (v : pystr) :
  re_match_slug v = true ↔
  ∃ body, body ≠ [] ∧ all_slug_chars body ∧ (v = body ∨ v = body ++ [0x0A%N]).
Proof.
  unfold re_match_slug, all_slug_chars. split.
  - induction v as [|c v IH]; cbn [re_plus]; [done|].
    rewrite andb_true_iff, orb_true_iff. intros [Hc [Hv|Hk]].
    + destruct (IH Hv) as (body & _ & Hall & Hshape).
      exists (c :: body). split_and!; [done|by constructor|].
      destruct Hshape as [->| ->]; auto.
    + exists [c]. split_and!; [done|by repeat constructor|].
      unfold re_dollar in Hk. rewrite orb_true_iff, !bool_decide_eq_true in Hk.
      destruct Hk as [->| ->]; auto.
  - intros (body & Hne & Hall & Hshape). revert v Hshape.
    induction Hall as [|c body Hc Hall IH]; [done|]. intros v Hshape.
    assert (v = c :: body ++ [] ∨ v = c :: body ++ [0x0A%N]) as [->| ->]
      by (rewrite app_nil_r; destruct Hshape; auto);
      cbn [re_plus]; rewrite Hc; cbn [andb];
      (destruct body as [|c' body];
       [reflexivity|rewrite IH; [done|done|rewrite ?app_nil_r; auto]]).
Qed.

(** On success the slug is returned as it was given. *)
Lemma validate_slug_unchanged (v v' : pystr) :
  validate_slug v = inr v' → v' = v.
Proof.
  unfold validate_slug. repeat case_match; congruence.
Qed.

Lemma all_slug_chars_dec (v : pystr) :
  all_slug_chars v ∨ ∃ c, c ∈ v ∧ is_slug_char c = false.
Proof.
  induction v as [|c v [IH|(c' & Hin & Hc')]].
  - left. constructor.
  - destruct (is_slug_char c) eqn:Hc.
    + left. by constructor.
    + right. exists c. split; [left|done].
  - right. exists c'. split; [by right|done].
Qed.

(** Every rejection is for one of the defects. *)
Lemma validate_slug_rejects_only_defects (v : pystr) (e : slug_error) :
  validate_slug v = inl e → slug_defect v.
Proof.
  unfold validate_slug, slug_defect.
  case_bool_decide as Hnil; [auto|].
  destruct (re_match_slug v) eqn:Hre; cbn [negb].
  - destruct (startswith (lit "-") v) eqn:Hs; [auto|].
    destruct (endswith (lit "-") v) eqn:He; [auto 6|]. cbn [orb].
    destruct (contains (lit "--") v) eqn:Hcn; [auto 6|done].
  - intros _. right. left.
    destruct (all_slug_chars_dec v) as [Hall|Hbad]; [|done].
    assert (re_match_slug v = true); [|congruence].
    apply re_match_slug_spec. exists v. auto.
Qed.

(** A slug with a defect is rejected, unless its only foreign character
    is a newline at its very end. *)
Lemma validate_slug_rejects_defects (v : pystr) :
  last v ≠ Some 0x0A%N → slug_defect v → ∃ e, validate_slug v = inl e.
Proof.
  intros Hlast Hdef. destruct (validate_slug v) as [e|v'] eqn:Hv; [eauto|].
  exfalso. revert Hv. unfold validate_slug.
  case_bool_decide as Hnil; [done|].
  destruct (re_match_slug v) eqn:Hre; cbn [negb]; [|done].
  destruct (startswith (lit "-") v) eqn:Hs; [done|].
  destruct (endswith (lit "-") v) eqn:He; [done|]. cbn [orb].
  destruct (contains (lit "--") v) eqn:Hcn; [done|]. intros _.
  destruct Hdef as [?|[(c & Hin & Hc)|[?|[?|?]]]]; try congruence.
  apply re_match_slug_spec in Hre as (body & _ & Hall & [->| ->]).
  - unfold all_slug_chars in Hall. rewrite Forall_forall in Hall.
    specialize (Hall c Hin). congruence.
  - by rewrite last_snoc in Hlast.
Qed.

End slug.

(** ** Preservation of the store invariant *)

Section invariant.

Lemma ItemBase_fields_inr name slug description n s d :
  ItemBase_fields name slug description = inr (n, s, d) →
  n = sanitize_string name 200 ∧ s = slug ∧ slug_ok slug
  ∧ d = (fun v => sanitize_string v 1000) <$> description
  ∧ 1 ≤ len name ≤ 200.
Proof.
  unfold ItemBase_fields, slug_ok.
  destruct (str_field Fname _ _ _ name) as [?|n'] eqn:Hn; [done|].
  destruct (str_field Fslug _ _ _ slug) as [?|s'] eqn:Hs; [done|].
  destruct (opt_str_field _ _ _ _ description) as [?|d'] eqn:Hd; [done|].
  intros [= -> -> ->].
  assert (s = slug) as ->.
  { revert Hs. unfold str_field, validate_slug_field.
    repeat case_match; try done. intros [= <-].
    by eapply validate_slug_unchanged. }
  split_and!; try done.
  - revert Hn. unfold str_field, sanitize_name. repeat case_match; congruence.
  - revert Hd. unfold opt_str_field, str_field, sanitize_description.
    repeat case_match; naive_solver.
  - revert Hn. unfold str_field. repeat case_bool_decide; try done; lia.
  - revert Hn. unfold str_field. repeat case_bool_decide; try done; lia.
Qed.

Lemma Item_new_inr i name slug description c u it :
  Item.new i name slug description c u = inr it →
  it = Item.mk i (Some (sanitize_string name 200)) slug
         ((fun v => sanitize_string v 1000) <$> description) c u
  ∧ slug_ok slug ∧ 1 ≤ len name ≤ 200.
Proof.
  unfold Item.new.
  destruct (ItemBase_fields name slug description) as [?|[[n s] d]] eqn:H;
    [done|].
  apply ItemBase_fields_inr in H as (-> & -> & ? & -> & ?).
  by intros [= <-].
Qed.

Lemma store_inv_init : store_inv init.
Proof. split; cbn; [by intros ?? ?%lookup_empty_Some..|lia]. Qed.

Lemma store_inv_create now data s :
  store_inv s → store_inv (create_item now data s).2.
Proof.
  intros [Hit Hidx Hnext]. unfold create_item.
  case_bool_decide as Hdup; [done|].
  destruct (Item.new _ _ _ _ _ _) as [?|item] eqn:Hnew; [done|].
  apply Item_new_inr in Hnew as (-> & Hok & _).
  apply eq_None_not_Some in Hdup. cbn in *. split; cbn.
  - intros i it. rewrite lookup_insert. case_decide as Hi.
    + intros [= <-]. subst i. cbn. rewrite lookup_insert_eq.
      split_and!; [done|done|lia..|done].
    + intros Hl. destruct (Hit _ _ Hl) as (? & Hsl & ? & ?).
      rewrite lookup_insert_ne by congruence. split_and!; [done|done|lia..|done].
  - intros sl i. rewrite lookup_insert. case_decide as Hsl.
    + intros [= <-]. rewrite lookup_insert_eq. eauto.
    + intros Hl. destruct (Hidx _ _ Hl) as (it & Hi & ?).
      exists it. split; [|done]. rewrite lookup_insert_ne; [done|].
      apply Hit in Hi. lia.
  - lia.
Qed.

Lemma apply_update_frame data it :
  let it' := Item.set_updated_at 0 (apply_update data it) in
  Item.id it' = Item.id it ∧ Item.slug it' = Item.slug it
  ∧ Item.created_at it' = Item.created_at it.
Proof. unfold apply_update. by repeat case_match. Qed.

Lemma store_inv_update now item_id data s :
  store_inv s → store_inv (update_item now item_id data s).2.
Proof.
  intros [Hit Hidx Hnext]. unfold update_item.
  destruct (_items s !! item_id) as [item|] eqn:Hitem; [|done].
  destruct (apply_update_frame data item) as (Hid & Hslug & _).
  cbn in *. split; cbn; [| |done].
  - intros i it. rewrite lookup_insert. case_decide as Hi.
    + intros [= <-]. subst i. cbn. rewrite Hid, Hslug. by apply Hit.
    + apply Hit.
  - intros sl i Hl. destruct (Hidx _ _ Hl) as (it & Hi & ?).
    rewrite lookup_insert. case_decide as Hi'; [|eauto]. subst i.
    eexists. split; [done|]. cbn. rewrite Hslug. congruence.
Qed.

Lemma delete_item_stored item_id item s :
  store_inv s → _items s !! item_id = Some item →
  delete_item item_id s
  = (Return true,
     mk (delete item_id (_items s)) (_next_id s)
        (delete (Item.slug item) (_slug_index s))).
Proof.
  intros [Hit _ _] Hitem. unfold delete_item. rewrite Hitem. cbn.
  destruct (Hit _ _ Hitem) as (_ & -> & _). done.
Qed.

Lemma store_inv_delete item_id s :
  store_inv s → store_inv (delete_item item_id s).2.
Proof.
  intros Hinv. destruct (_items s !! item_id) as [item|] eqn:Hitem.
  - rewrite (delete_item_stored _ _ _ Hinv Hitem).
    destruct Hinv as [Hit Hidx Hnext]. split; cbn; [| |done].
    + intros i it [Hi Hl]%lookup_delete_Some.
      destruct (Hit _ _ Hl) as (? & Hsl & ? & ?).
      split_and!; try done; try lia. rewrite lookup_delete_ne; [done|].
      intros Heq. destruct (Hit _ _ Hitem) as (_ & Hsl' & _). congruence.
    + intros sl i [Hsl Hl]%lookup_delete_Some.
      destruct (Hidx _ _ Hl) as (it & Hi & ?). exists it. split; [|done].
      rewrite lookup_delete_ne; [done|]. congruence.
  - unfold delete_item. by rewrite Hitem.
Qed.

Lemma store_inv_step s s' : step s s' → store_inv s → store_inv s'.
Proof.
  destruct 1; auto using store_inv_create, store_inv_update, store_inv_delete.
Qed.

Lemma store_inv_steps s s' : rtc step s s' → store_inv s → store_inv s'.
Proof. induction 1; eauto using store_inv_step. Qed.

Lemma reachable_store_inv s : reachable s → store_inv s.
Proof. intros H. apply (store_inv_steps _ _ H), store_inv_init. Qed.

Lemma store_inv_consistent s : store_inv s → indexes_consistent s.
Proof.
  intros [Hit Hidx _]. split; [apply Hit|apply Hidx|].
  intros i j a b Ha Hb Heq.
  destruct (Hit _ _ Ha) as (_ & Hsa & _), (Hit _ _ Hb) as (_ & Hsb & _).
  congruence.
Qed.

Lemma reachable_step s s' : reachable s → step s s' → reachable s'.
Proof. intros. by eapply rtc_r. Qed.

End invariant.

(** ** Reachability of the sample states *)

Lemma reachable_init : reachable init.
Proof. apply rtc_refl. Qed.

Lemma reachable_one_item : reachable one_item.
Proof. eapply reachable_step; [apply reachable_init|apply step_create]. Qed.

(** ** The store *)

(** C1: in every state the service can reach, the two dicts agree: an item
    stored under an id has its slug in the slug index, pointing to that id;
    every entry of the slug index points to a stored item with that slug; no
    two stored items share a slug.  [create_item], [update_item] and
    [delete_item] lead to states where this holds again. *)
Theorem indexes_consistent_reachable (s : ItemService) :
  reachable s →
  indexes_consistent s
  ∧ (∀ now data, indexes_consistent (create_item now data s).2)
  ∧ (∀ now item_id data, indexes_consistent (update_item now item_id data s).2)
  ∧ (∀ item_id, indexes_consistent (delete_item item_id s).2).
Proof.
  intros Hs%reachable_store_inv. split_and!; intros;
    auto using store_inv_consistent, store_inv_create, store_inv_update,
      store_inv_delete.
Qed.

Lemma indexes_consistent_reachable_witness :
  reachable one_item
  ∧ indexes_consistent one_item
  ∧ (∀ now data, indexes_consistent (create_item now data one_item).2)
  ∧ (∀ now item_id data,
       indexes_consistent (update_item now item_id data one_item).2)
  ∧ (∀ item_id, indexes_consistent (delete_item item_id one_item).2).
Proof.
  split; [apply reachable_one_item|].
  apply (indexes_consistent_reachable one_item), reachable_one_item.
Defined.

(** C2: [create_item] with a slug that the slug index already holds raises
    the duplicate-slug error and leaves the service as it was: same items
    (and as many), same slug index, same counter; so whatever is created
    next gets the id it would have got without the failed call. *)
Theorem create_item_duplicate_slug now data (s : ItemService) :
  is_Some (_slug_index s !! ItemCreate.slug data) →
  create_item now data s = (Raise (DuplicateSlug (ItemCreate.slug data)), s)
  ∧ size (_items (create_item now data s).2) = size (_items s)
  ∧ _items (create_item now data s).2 = _items s
  ∧ _slug_index (create_item now data s).2 = _slug_index s
  ∧ _next_id (create_item now data s).2 = _next_id s
  ∧ (∀ now' data',
       create_item now' data' (create_item now data s).2
       = create_item now' data' s)
  ∧ (∀ now' data' item,
       (create_item now' data' (create_item now data s).2).1 = Return item →
       Item.id item = _next_id s).
Proof.
  intros Hdup.
  assert (create_item now data s
          = (Raise (DuplicateSlug (ItemCreate.slug data)), s)) as ->.
  { unfold create_item. by rewrite bool_decide_eq_true_2. }
  cbn [snd]. split_and!; try done.
  intros now' data' item. unfold create_item.
  case_bool_decide; [done|].
  destruct (Item.new _ _ _ _ _ _) as [?|item'] eqn:Hnew; [done|].
  apply Item_new_inr in Hnew as (-> & _). by intros [= <-].
Qed.

Lemma create_item_duplicate_slug_witness :
  is_Some (_slug_index one_item !! ItemCreate.slug sample)
  ∧ create_item 11 sample one_item
    = (Raise (DuplicateSlug (lit "sample-item")), one_item).
Proof.
  assert (H : is_Some (_slug_index one_item !! ItemCreate.slug sample)).
  { exists 1. vm_compute. reflexivity. }
  split; [exact H|].
  exact (proj1 (create_item_duplicate_slug 11 sample one_item H)).
Defined.

(** C4: [update_item] on a stored id assigns exactly the fields the payload
    has set (a field not set keeps its value), leaves [id], [slug] and
    [created_at] alone, sets [updated_at] to the current time whatever the
    payload holds, and returns the item it has stored. *)
Theorem update_item_frame now item_id data (s : ItemService) item :
  _items s !! item_id = Some item →
  ∃ item',
    update_item now item_id data s
    = (Some item',
       mk (<[item_id := item']> (_items s)) (_next_id s) (_slug_index s))
    ∧ get_item item_id (update_item now item_id data s).2 = Some item'
    ∧ Item.name item' = default (Item.name item) (ItemUpdate.name data)
    ∧ Item.description item'
      = default (Item.description item) (ItemUpdate.description data)
    ∧ Item.id item' = Item.id item
    ∧ Item.slug item' = Item.slug item
    ∧ Item.created_at item' = Item.created_at item
    ∧ Item.updated_at item' = now.
Proof.
  intros Hitem. unfold update_item, get_item. rewrite Hitem.
  eexists. split; [reflexivity|]. cbn [snd _items].
  rewrite lookup_insert_eq. split; [reflexivity|].
  unfold apply_update.
  destruct (ItemUpdate.name data), (ItemUpdate.description data); done.
Qed.

Lemma update_item_frame_witness :
  ∃ item item',
    _items one_item !! 1 = Some item
    ∧ (update_item 20 1 (ItemUpdate.mk None None) one_item).1 = Some item'
    ∧ Item.name item' = Item.name item
    ∧ Item.updated_at item' = 20.
Proof.
  assert (H : _items one_item !! 1
              = Some (Item.mk 1 (Some (lit "Sample Item")) (lit "sample-item")
                        (Some (lit "A sample item for testing")) 10 10)).
  { vm_compute. reflexivity. }
  destruct (update_item_frame 20 1 (ItemUpdate.mk None None) one_item _ H)
    as (item' & Hupd & _ & Hname & _ & _ & _ & _ & Htime).
  eexists _, item'. split; [exact H|]. rewrite Hupd. auto.
Defined.

(** C9: a payload whose [name] is explicitly [None] passes the validation
    of [ItemUpdate], and [update_item] with it on a stored id succeeds and
    stores [None] as the name of the item, exactly as it does for a
    [description] that is explicitly [None]: nothing checks the name again
    when it is assigned. *)
Theorem update_item_null_name now item_id (s : ItemService) item :
  _items s !! item_id = Some item →
  ∃ data item',
    ItemUpdate.new (Some None) None = inr data
    ∧ (update_item now item_id data s).1 = Some item'
    ∧ Item.name item' = None
    ∧ get_item item_id (update_item now item_id data s).2 = Some item'
    ∧ ∃ data_d item_d,
        ItemUpdate.new None (Some None) = inr data_d
        ∧ (update_item now item_id data_d s).1 = Some item_d
        ∧ Item.description item_d = None.
Proof.
  intros Hitem.
  exists (ItemUpdate.mk (Some None) None). eexists.
  split; [reflexivity|].
  unfold update_item, get_item. rewrite Hitem. cbn [fst snd _items].
  rewrite lookup_insert_eq. split_and!; try reflexivity.
  exists (ItemUpdate.mk None (Some None)). eexists.
  split; [reflexivity|]. split; reflexivity.
Qed.

Lemma update_item_null_name_witness :
  ∃ item item',
    _items one_item !! 1 = Some item
    ∧ Item.name item = Some (lit "Sample Item")
    ∧ (update_item 20 1 (ItemUpdate.mk (Some None) None) one_item).1
      = Some item'
    ∧ Item.name item' = None.
Proof.
  assert (H : _items one_item !! 1
              = Some (Item.mk 1 (Some (lit "Sample Item")) (lit "sample-item")
                        (Some (lit "A sample item for testing")) 10 10)).
  { vm_compute. reflexivity. }
  destruct (update_item_null_name 20 1 one_item _ H)
    as (data & item' & Hdata & Hupd & Hname & _).
  injection Hdata as <-.
  eexists _, item'. split; [exact H|]. auto.
Defined.

(** C10: a name that input validation accepts but that sanitizes to the
    empty string (a single control character, for one) gives an
    [ItemCreate] with an empty name; [create_item] with it and a slug that
    is not indexed raises the validation error of the [name] field (too
    short), which is neither the duplicate-slug error nor a slug error, and
    leaves the service as it was: nothing stored, counter not advanced. *)
Theorem create_item_empty_sanitized_name now name slug description data
    (s : ItemService) :
  ItemCreate.new name slug description = inr data →
  sanitize_string name 200 = [] →
  _slug_index s !! slug = None →
  create_item now data s
  = (Raise (ValidationError [(Fname, string_too_short)]), s).
Proof.
  unfold ItemCreate.new.
  destruct (ItemBase_fields name slug description) as [?|[[n sl] d]] eqn:Hf;
    [done|].
  intros [= <-] Hname Hfree.
  apply ItemBase_fields_inr in Hf as (-> & -> & Hok & -> & _).
  unfold create_item. cbn [ItemCreate.slug ItemCreate.name ItemCreate.description].
  rewrite Hfree, bool_decide_eq_false_2 by (by intros [? ?]).
  unfold Item.new, ItemBase_fields. rewrite Hname.
  change (str_field Fname (Some 1) 200 sanitize_name [])
    with (inl [(Fname, string_too_short)] : error_details + pystr).
  unfold slug_ok in Hok. rewrite Hok.
  destruct description as [v|]; cbn [fmap option_fmap option_map opt_str_field];
    [|reflexivity].
  destruct (str_field Fdescription None 1000 sanitize_description
              (sanitize_string v 1000)) as [e|v'] eqn:Hd; [|reflexivity].
  exfalso. revert Hd. unfold str_field, sanitize_description.
  case_bool_decide as Hlen; [|done]. intros _.
  assert (len (sanitize_string v 1000) ≤ 1000); [|lia].
  rewrite sanitize_string_pipeline by lia. unfold len.
  rewrite length_take. lia.
Qed.

Lemma create_item_empty_sanitized_name_witness :
  ItemCreate.new [0x01%N] (lit "ok") None = inr (ItemCreate.mk [] (lit "ok") None)
  ∧ create_item 10 (ItemCreate.mk [] (lit "ok") None) init
    = (Raise (ValidationError [(Fname, string_too_short)]), init).
Proof.
  assert (H : ItemCreate.new [0x01%N] (lit "ok") None
              = inr (ItemCreate.mk [] (lit "ok") None)).
  { vm_compute. reflexivity. }
  split; [exact H|].
  apply (create_item_empty_sanitized_name 10 [0x01%N] (lit "ok") None _ init H).
  - vm_compute. reflexivity.
  - vm_compute. reflexivity.
Defined.

(** ** Validation and sanitization *)

(** C7: ["abc\n"], whose last character is outside [[a-z0-9-]], passes
    [validate_slug] and is returned as it is; so does ["a-\n"], although its
    last character before the newline is a hyphen. *)
Theorem validate_slug_trailing_newline :
  let v := lit "abc" ++ [0x0A%N] in
  let w := lit "a-" ++ [0x0A%N] in
  validate_slug v = inr v ∧ slug_defect v
  ∧ validate_slug w = inr w ∧ slug_defect w.
Proof.
  cbn zeta. split_and!; try (vm_compute; reflexivity);
    right; left; exists 0x0A%N; (split; [|reflexivity]);
    apply list_elem_of_In; cbn; auto.
Qed.



(** ** Creation, deletion and the id counter *)

Section counter.

Lemma remove_control_clean (s : pystr) :
  Forall (fun c => is_control c = false) s → remove_control s = s.
Proof.
  induction 1 as [|c s Hc _ IH]; [done|].
  unfold remove_control in *. cbn. rewrite Hc. cbn. by rewrite IH.
Qed.

Lemma remove_control_Forall (s : pystr) :
  Forall (fun c => is_control c = false) (remove_control s).
Proof.
  apply Forall_forall. intros c Hc. by apply elem_of_remove_control in Hc as [_ ?].
Qed.

Lemma len_sanitize_string (v : pystr) (m : Z) :
  0 ≤ m → len (sanitize_string v m) ≤ m.
Proof.
  intros Hm. rewrite sanitize_string_pipeline by done. unfold len.
  rewrite length_take. lia.
Qed.

(** Sanitizing again changes a sanitized string only by stripping the
    whitespace that deleting control characters has brought to its ends. *)
Lemma sanitize_string_again (v : pystr) (m : Z) :
  0 ≤ m →
  strip (sanitize_string v m) = sanitize_string v m →
  sanitize_string (sanitize_string v m) m = sanitize_string v m.
Proof.
  intros Hm Hstrip. pose proof (len_sanitize_string v m Hm) as Hlen.
  rewrite (sanitize_string_pipeline (sanitize_string v m)) by done.
  rewrite Hstrip, remove_control_clean.
  - apply take_ge. unfold len in Hlen. lia.
  - rewrite sanitize_string_pipeline by done.
    apply Forall_take, remove_control_Forall.
Qed.

(** [Item(...)] accepts the fields of a validated [ItemCreate] whose name
    is not empty. *)
Lemma Item_new_of_ItemCreate i name slug description data now :
  ItemCreate.new name slug description = inr data →
  ItemCreate.name data ≠ [] →
  Item.new i (ItemCreate.name data) (ItemCreate.slug data)
    (ItemCreate.description data) now now
  = inr (Item.mk i (Some (sanitize_string (ItemCreate.name data) 200))
           (ItemCreate.slug data)
           ((fun v => sanitize_string v 1000) <$> ItemCreate.description data)
           now now).
Proof.
  unfold ItemCreate.new.
  destruct (ItemBase_fields name slug description) as [?|[[n sl] d]] eqn:Hf;
    [done|].
  intros [= <-]. cbn. intros Hne.
  apply ItemBase_fields_inr in Hf as (-> & -> & Hok & -> & _).
  unfold Item.new, ItemBase_fields.
  unfold slug_ok in Hok. rewrite Hok.
  assert (str_field Fname (Some 1) 200 sanitize_name (sanitize_string name 200)
          = inr (sanitize_string (sanitize_string name 200) 200)) as ->.
  { unfold str_field, sanitize_name.
    pose proof (len_sanitize_string name 200).
    rewrite !bool_decide_eq_false_2; [done|lia|].
    destruct (sanitize_string name 200); [done|]. unfold len. cbn. lia. }
  destruct description as [v|]; cbn; [|done].
  unfold str_field, sanitize_description.
  pose proof (len_sanitize_string v 1000).
  rewrite bool_decide_eq_false_2 by lia. done.
Qed.

Lemma next_id_step s s' : step s s' → _next_id s ≤ _next_id s'.
Proof.
  destruct 1 as [now data s|now i data s|i s].
  - unfold create_item. repeat case_match; cbn; lia.
  - unfold update_item. repeat case_match; cbn; lia.
  - unfold delete_item. repeat case_match; cbn; lia.
Qed.

(** The counter never goes down. *)
Lemma next_id_steps s s' : rtc step s s' → _next_id s ≤ _next_id s'.
Proof.
  induction 1 as [|s1 s2 s3 H12 _ IH]; [lia|].
  apply next_id_step in H12. lia.
Qed.

(** A created item gets the value of the counter as its id. *)
Lemma create_item_id now data s item :
  (create_item now data s).1 = Return item → Item.id item = _next_id s.
Proof.
  unfold create_item. case_bool_decide; [done|].
  destruct (Item.new _ _ _ _ _ _) as [?|item'] eqn:Hnew; [done|].
  apply Item_new_inr in Hnew as (-> & _). by intros [= <-].
Qed.

(** [create_item] with a validated [ItemCreate] whose name is not empty and
    whose slug is not indexed: the item built, and the state left. *)
Lemma create_item_fresh_slug now name slug description data (s : ItemService) :
  ItemCreate.new name slug description = inr data →
  ItemCreate.name data ≠ [] →
  _slug_index s !! ItemCreate.slug data = None →
  let item := Item.mk (_next_id s)
                (Some (sanitize_string (ItemCreate.name data) 200))
                (ItemCreate.slug data)
                ((fun v => sanitize_string v 1000) <$> ItemCreate.description data)
                now now in
  create_item now data s
  = (Return item,
     mk (<[_next_id s := item]> (_items s)) (_next_id s + 1)
        (<[ItemCreate.slug data := _next_id s]> (_slug_index s))).
Proof.
  intros Hdata Hne Hfree. cbn zeta. unfold create_item.
  rewrite Hfree, bool_decide_eq_false_2 by (by intros [? ?]).
  by rewrite (Item_new_of_ItemCreate _ _ _ _ _ now Hdata Hne).
Qed.

(** The fields of a validated [ItemCreate]. *)
Lemma ItemCreate_new_inr name slug description data :
  ItemCreate.new name slug description = inr data →
  data = ItemCreate.mk (sanitize_string name 200) slug
           ((fun v => sanitize_string v 1000) <$> description).
Proof.
  unfold ItemCreate.new.
  destruct (ItemBase_fields name slug description) as [?|[[n sl] d]] eqn:Hf;
    [done|].
  apply ItemBase_fields_inr in Hf as (-> & -> & _ & -> & _). by intros [= <-].
Qed.

End counter.

(** C5, as stated, fails: [ItemCreate] accepts the name [" \x01 a"] and
    holds [" a"]; [create_item] succeeds on the empty store, and the item it
    stores, and [get_item] returns, is named ["a"]. *)
Lemma create_item_name_resanitized :
  ∃ data item s',
    ItemCreate.new spaced_name (lit "a") None = inr data
    ∧ ItemCreate.name data = lit " a"
    ∧ _slug_index init !! ItemCreate.slug data = None
    ∧ create_item 10 data init = (Return item, s')
    ∧ get_item (Item.id item) s' = Some item
    ∧ Item.name item = Some (lit "a")
    ∧ Item.name item ≠ Some (ItemCreate.name data)
    ∧ Item.name item ≠ Some spaced_name.
Proof.
  exists (ItemCreate.mk (lit " a") (lit "a") None). eexists _, _.
  split_and!; try (vm_compute; reflexivity); vm_compute; congruence.
Qed.

(** C5, amended: in a reachable state, for a validated [ItemCreate] whose
    name is not empty and whose slug is not indexed, [create_item] succeeds
    and [get_item] on the returned id yields the returned item; its slug is
    the input's; its name and description are the input's sanitized once
    more, hence the input's own when they neither start nor end with
    whitespace; its id is the value of the counter, which is positive; its
    [created_at] and [updated_at] are both the time of the call. *)
Theorem create_item_get_item now name slug description data (s : ItemService) :
  reachable s →
  ItemCreate.new name slug description = inr data →
  ItemCreate.name data ≠ [] →
  _slug_index s !! ItemCreate.slug data = None →
  ∃ item,
    (create_item now data s).1 = Return item
    ∧ get_item (Item.id item) (create_item now data s).2 = Some item
    ∧ Item.slug item = ItemCreate.slug data
    ∧ Item.name item = Some (sanitize_string (ItemCreate.name data) 200)
    ∧ (strip (ItemCreate.name data) = ItemCreate.name data →
       Item.name item = Some (ItemCreate.name data))
    ∧ Item.description item
      = (fun v => sanitize_string v 1000) <$> ItemCreate.description data
    ∧ (∀ d, ItemCreate.description data = Some d → strip d = d →
         Item.description item = Some d)
    ∧ Item.id item = _next_id s ∧ 0 < Item.id item
    ∧ Item.created_at item = now ∧ Item.updated_at item = now.
Proof.
  intros Hs%reachable_store_inv Hdata Hne Hfree.
  rewrite (create_item_fresh_slug now _ _ _ _ s Hdata Hne Hfree).
  eexists. cbn [fst snd]. split; [reflexivity|]. unfold get_item. cbn.
  rewrite lookup_insert_eq. apply ItemCreate_new_inr in Hdata as ->. cbn.
  split_and!; try done; [| |apply Hs].
  - intros Hstrip. f_equal. by apply sanitize_string_again.
  - intros d Hd Hstrip. destruct description as [v|]; [|done].
    injection Hd as <-. cbn. f_equal. by apply sanitize_string_again.
Qed.

Lemma create_item_get_item_witness :
  reachable init
  ∧ ItemCreate.new (lit "Sample Item") (lit "sample-item")
      (Some (lit "A sample item for testing")) = inr sample
  ∧ ∃ item,
      (create_item 10 sample init).1 = Return item
      ∧ get_item 1 one_item = Some item
      ∧ Item.name item = Some (lit "Sample Item")
      ∧ Item.id item = 1.
Proof.
  assert (Hdata : ItemCreate.new (lit "Sample Item") (lit "sample-item")
                    (Some (lit "A sample item for testing")) = inr sample).
  { vm_compute. reflexivity. }
  assert (Hne : ItemCreate.name sample ≠ []).
  { vm_compute. discriminate. }
  assert (Hfree : _slug_index init !! ItemCreate.slug sample = None).
  { vm_compute. reflexivity. }
  split; [apply reachable_init|]. split; [exact Hdata|].
  destruct (create_item_get_item 10 _ _ _ sample init reachable_init Hdata Hne
              Hfree)
    as (item & Hcreate & Hget & _ & _ & Hname & _ & _ & Hid & _).
  exists item. split; [exact Hcreate|]. rewrite Hid in Hget.
  split; [exact Hget|]. split; [|exact Hid].
  apply Hname. vm_compute. reflexivity.
Defined.

(** C6: in a reachable state [delete_item] on a stored id returns [True];
    afterwards neither [get_item] on the id nor [get_item_by_slug] on the
    slug of the deleted item finds anything; a validated [ItemCreate] with
    that slug (and a name that is not empty) can be created again; and
    whatever the service goes through after the deletion, an item created
    then has an id above the deleted one, because no call lowers the
    counter. *)
Theorem delete_item_frees_slug_keeps_id item_id item (s : ItemService) :
  reachable s →
  _items s !! item_id = Some item →
  (delete_item item_id s).1 = Return true
  ∧ get_item item_id (delete_item item_id s).2 = None
  ∧ get_item_by_slug (Item.slug item) (delete_item item_id s).2 = None
  ∧ (∀ now name description data,
       ItemCreate.new name (Item.slug item) description = inr data →
       ItemCreate.name data ≠ [] →
       ∃ item', (create_item now data (delete_item item_id s).2).1
                = Return item'
                ∧ Item.slug item' = Item.slug item
                ∧ Item.id item' ≠ item_id)
  ∧ (∃ data, ItemCreate.new (lit "x") (Item.slug item) None = inr data
             ∧ ItemCreate.name data ≠ [])
  ∧ (∀ s1 s2, step s1 s2 → _next_id s1 ≤ _next_id s2)
  ∧ (∀ s' now data item',
       rtc step (delete_item item_id s).2 s' →
       (create_item now data s').1 = Return item' →
       item_id < Item.id item').
Proof.
  intros Hreach Hitem. pose proof (reachable_store_inv _ Hreach) as Hinv.
  assert (Hreach' : reachable (delete_item item_id s).2).
  { eapply reachable_step; [done|apply step_delete]. }
  destruct (inv_items _ Hinv _ _ Hitem) as (_ & _ & Hlt & Hok).
  revert Hreach'. rewrite (delete_item_stored _ _ _ Hinv Hitem). cbn [fst snd].
  intros Hreach'. split_and!.
  - done.
  - unfold get_item. cbn. apply lookup_delete_eq.
  - unfold get_item_by_slug. cbn. by rewrite lookup_delete_eq.
  - intros now name description data Hdata Hne.
    assert (Hslug : ItemCreate.slug data = Item.slug item).
    { by rewrite (ItemCreate_new_inr _ _ _ _ Hdata). }
    rewrite (create_item_fresh_slug now _ _ _ _ _ Hdata Hne)
      by (rewrite Hslug; cbn; apply lookup_delete_eq).
    eexists. split; [reflexivity|]. cbn. split; [done|lia].
  - eexists. split.
    + unfold ItemCreate.new, ItemBase_fields. unfold slug_ok in Hok.
      rewrite Hok. reflexivity.
    + vm_compute. discriminate.
  - apply next_id_step.
  - intros s' now data item' Hsteps%next_id_steps Hcreate%create_item_id.
    cbn in Hsteps. lia.
Qed.

Lemma delete_item_frees_slug_keeps_id_witness :
  reachable one_item
  ∧ is_Some (_items one_item !! 1)
  ∧ (delete_item 1 one_item).1 = Return true
  ∧ get_item 1 (delete_item 1 one_item).2 = None.
Proof.
  assert (H : _items one_item !! 1
              = Some (Item.mk 1 (Some (lit "Sample Item")) (lit "sample-item")
                        (Some (lit "A sample item for testing")) 10 10)).
  { vm_compute. reflexivity. }
  split; [apply reachable_one_item|]. split; [rewrite H; eexists; reflexivity|].
  destruct (delete_item_frees_slug_keeps_id 1 _ one_item reachable_one_item H)
    as (Hdel & Hget & _).
  split; [exact Hdel|exact Hget].
Defined.

(** ** Listing *)

Section listing.

Global Instance id_le_total : Total id_le.
Proof. intros a b. unfold id_le. lia. Qed.

Global Instance id_le_trans : Transitive id_le.
Proof. intros a b c. unfold id_le. lia. Qed.

Lemma all_items_Permutation s : all_items s ≡ₚ values s.
Proof. apply merge_sort_Permutation. Qed.

Lemma elem_of_values s it :
  store_inv s → it ∈ values s ↔ _items s !! Item.id it = Some it.
Proof.
  intros Hinv. unfold values. rewrite list_elem_of_fmap. split.
  - intros ([i it'] & -> & Hin%elem_of_map_to_list). cbn.
    by destruct (inv_items _ Hinv _ _ Hin) as (-> & _).
  - intros Hl. exists (Item.id it, it). split; [done|].
    by apply elem_of_map_to_list.
Qed.

(** The ids of the stored items are the keys they are stored under. *)
Lemma values_ids s :
  store_inv s → Item.id <$> values s = (map_to_list (_items s)).*1.
Proof.
  intros Hinv. unfold values. rewrite <- list_fmap_compose.
  apply Forall_fmap_ext, Forall_forall.
  intros [i it] Hin%elem_of_map_to_list. cbn.
  by destruct (inv_items _ Hinv _ _ Hin) as (-> & _).
Qed.

Lemma all_items_NoDup_ids s : store_inv s → NoDup (Item.id <$> all_items s).
Proof.
  intros Hinv. rewrite all_items_Permutation, values_ids by done.
  apply NoDup_fst_map_to_list.
Qed.

Lemma StronglySorted_strict (l : list Item.t) :
  StronglySorted id_le l → NoDup (Item.id <$> l) →
  StronglySorted (fun a b => Item.id a < Item.id b) l.
Proof.
  induction 1 as [|a l Hl IH Ha]; [constructor|].
  rewrite fmap_cons, NoDup_cons. intros [Hnotin Hnd].
  constructor; [by apply IH|].
  rewrite Forall_forall in Ha |- *. intros b Hb.
  specialize (Ha b Hb). unfold id_le in Ha.
  assert (Item.id a ≠ Item.id b); [|lia].
  intros Heq. apply Hnotin. rewrite Heq. by apply list_elem_of_fmap_2.
Qed.

Lemma all_items_sorted s :
  store_inv s → StronglySorted (fun a b => Item.id a < Item.id b) (all_items s).
Proof.
  intros Hinv. apply StronglySorted_strict.
  - apply StronglySorted_merge_sort; apply _.
  - by apply all_items_NoDup_ids.
Qed.

Lemma sorted_by_id_unique (l1 l2 : list Item.t) :
  StronglySorted (fun a b => Item.id a < Item.id b) l1 →
  StronglySorted (fun a b => Item.id a < Item.id b) l2 →
  l1 ≡ₚ l2 → l1 = l2.
Proof.
  revert l2. induction l1 as [|a l1 IH]; intros l2 H1 H2 Hperm.
  - by apply Permutation_nil_l in Hperm.
  - destruct l2 as [|b l2]; [by apply Permutation_nil_r in Hperm|].
    apply StronglySorted_inv in H1 as [H1 Ha], H2 as [H2 Hb].
    rewrite Forall_forall in Ha, Hb.
    assert (a = b) as ->.
    { assert (Hin_a : a ∈ b :: l2) by (rewrite <- Hperm; left).
      assert (Hin_b : b ∈ a :: l1) by (rewrite Hperm; left).
      apply elem_of_cons in Hin_a as [?|Hin_a]; [done|].
      apply elem_of_cons in Hin_b as [?|Hin_b]; [done|].
      specialize (Ha _ Hin_b). specialize (Hb _ Hin_a). lia. }
    f_equal. apply IH; [done..|]. by apply Permutation_cons_inv in Hperm.
Qed.

(** Whatever order the values of the dict come in, sorting them by id gives
    [all_items]. *)
Lemma all_items_any_order s (l : list Item.t) :
  store_inv s → l ≡ₚ values s → StronglySorted id_le l → l = all_items s.
Proof.
  intros Hinv Hperm Hsorted. apply sorted_by_id_unique.
  - apply StronglySorted_strict; [done|].
    rewrite Hperm, values_ids by done. apply NoDup_fst_map_to_list.
  - by apply all_items_sorted.
  - by rewrite all_items_Permutation.
Qed.

End listing.

Lemma reachable_two_items : reachable two_items.
Proof.
  eapply reachable_step; [|apply step_create].
  eapply reachable_step; [apply reachable_init|apply step_create].
Qed.

(** The pagination test of the suite: the third to fifth item created. *)
Example list_items_pagination :
  Item.slug <$> list_items 2 3 ten_items
  = [lit "item-2"; lit "item-3"; lit "item-4"]
  ∧ Item.id <$> list_items 0 100 ten_items = [1; 2; 3; 4; 5; 6; 7; 8; 9; 10].
Proof. split; vm_compute; reflexivity. Qed.

(** C3, as stated, fails: with two items stored, a negative [skip] selects
    from the end of the list, and a negative [limit] cuts items off the end
    of the list; neither result is empty. *)
Lemma list_items_negative_not_empty :
  reachable two_items
  ∧ list_items (-1) 100 two_items
    = [Item.mk 2 (Some (lit "Item 2")) (lit "item-2") None 11 11]
  ∧ list_items 0 (-1) two_items
    = [Item.mk 1 (Some (lit "Item 1")) (lit "item-1") None 10 10].
Proof.
  split; [apply reachable_two_items|]. split; vm_compute; reflexivity.
Qed.

(** C3, amended: in a reachable state, for [skip] and [limit] that are not
    negative, [list_items] returns the stored items in ascending order of
    id, without the first [skip] of them and cut after [limit] of them; in
    particular the result for [limit = 0] is empty, whatever [skip] is. *)
Theorem list_items_window skip limit (s : ItemService) :
  reachable s → 0 ≤ skip → 0 ≤ limit →
  list_items skip limit s
  = take (Z.to_nat limit) (drop (Z.to_nat skip) (all_items s))
  ∧ StronglySorted (fun a b => Item.id a < Item.id b) (all_items s)
  ∧ (∀ it, it ∈ all_items s ↔ get_item (Item.id it) s = Some it)
  ∧ length (all_items s) = size (_items s)
  ∧ len (list_items skip limit s) ≤ limit
  ∧ (∀ skip', list_items skip' 0 s = []).
Proof.
  intros Hs%reachable_store_inv Hskip Hlimit.
  assert (Hwin : list_items skip limit s
                 = take (Z.to_nat limit) (drop (Z.to_nat skip) (all_items s))).
  { unfold list_items. by apply slice_window. }
  split_and!.
  - exact Hwin.
  - by apply all_items_sorted.
  - intros it. rewrite all_items_Permutation. by apply elem_of_values.
  - rewrite all_items_Permutation. unfold values.
    by rewrite length_fmap, length_map_to_list.
  - rewrite Hwin. unfold len. rewrite length_take. lia.
  - intros skip'. unfold list_items. rewrite Z.add_0_r. apply slice_empty_range.
Qed.

Lemma list_items_window_witness :
  reachable two_items ∧ 0 ≤ 1 ∧ 0 ≤ 3
  ∧ list_items 1 3 two_items
    = [Item.mk 2 (Some (lit "Item 2")) (lit "item-2") None 11 11].
Proof.
  split; [apply reachable_two_items|]. split; [lia|]. split; [lia|].
  rewrite (proj1 (list_items_window 1 3 two_items reachable_two_items
                    ltac:(lia) ltac:(lia))).
  vm_compute. reflexivity.
Defined.

(** * Further properties *)

(** ** sanitize_string *)

Section sanitize.

Lemma strip_sublist (s : pystr) : sublist (strip s) s.
Proof.
  destruct (strip_spec s) as (l & r & Heq & _). rewrite Heq at 2.
  apply sublist_inserts_l, sublist_inserts_r. done.
Qed.

Lemma slice_sublist {A} (l : list A) (i j : Z) : sublist (slice l i j) l.
Proof.
  unfold slice. etrans; [apply sublist_take|apply sublist_drop].
Qed.

Lemma clean_sublist (v : pystr) : sublist (clean v) v.
Proof.
  unfold clean. etrans; [apply remove_control_sublist|apply strip_sublist].
Qed.

Lemma lstrip_id (s : pystr) :
  (∀ c, head s = Some c → isspace c = false) → lstrip s = s.
Proof. destruct s as [|c s]; [done|]. intros H. cbn. by rewrite (H c). Qed.

Lemma rstrip_id (s : pystr) :
  (∀ c, last s = Some c → isspace c = false) → rstrip s = s.
Proof.
  intros H. unfold rstrip. rewrite lstrip_id, reverse_involutive; [done|].
  intros c. rewrite head_reverse. apply H.
Qed.

Lemma strip_id (s : pystr) :
  (∀ c, head s = Some c → isspace c = false) →
  (∀ c, last s = Some c → isspace c = false) →
  strip s = s.
Proof. intros Hh Hl. unfold strip. by rewrite lstrip_id, rstrip_id. Qed.

Lemma strip_strip (s : pystr) : strip (strip s) = strip s.
Proof.
  destruct (strip_spec s) as (_ & _ & _ & _ & _ & Hh & Hl). by apply strip_id.
Qed.

Lemma sanitize_string_no_cut (v : pystr) (m : Z) :
  len v ≤ m → sanitize_string v m = clean v.
Proof.
  intros Hlen. unfold sanitize_string, clean.
  case_bool_decide as Hv; [by subst|].
  rewrite bool_decide_eq_false_2; [done|].
  pose proof (sublist_length _ _ (clean_sublist v)). unfold clean, len in *. lia.
Qed.

Lemma sanitize_string_control_free (v : pystr) (m : Z) :
  Forall (fun c => is_control c = false) (sanitize_string v m).
Proof.
  unfold sanitize_string. case_bool_decide; [constructor|].
  case_bool_decide; [|apply remove_control_Forall].
  unfold slice. apply Forall_take, Forall_drop, remove_control_Forall.
Qed.

Lemma sanitize_string_fixed (value : pystr) (max_length : Z) :
  strip value = value →
  Forall (fun c => is_control c = false) value →
  len value ≤ max_length →
  sanitize_string value max_length = value.
Proof.
  intros Hstrip Hctl Hlen. rewrite sanitize_string_no_cut by done.
  unfold clean. rewrite Hstrip. by apply remove_control_clean.
Qed.

End sanitize.

(** X1: [sanitize_string] only deletes: whatever the bound, negative or
    not, its result is a subsequence of its argument, hence never longer. *)
Theorem sanitize_string_only_deletes (value : pystr) (max_length : Z) :
  sublist (sanitize_string value max_length) value
  ∧ len (sanitize_string value max_length) ≤ len value.
Proof.
  assert (H : sublist (sanitize_string value max_length) value).
  { unfold sanitize_string. case_bool_decide; [apply sublist_nil_l|].
    case_bool_decide; [|apply clean_sublist].
    etrans; [apply slice_sublist|apply clean_sublist]. }
  split; [done|]. apply sublist_length in H. unfold len. lia.
Qed.



(** X3: a text without control characters and without whitespace at either
    end, no longer than the bound, is returned as it is. *)
Theorem sanitize_string_identity (value : pystr) (max_length : Z) :
  strip value = value →
  Forall (fun c => is_control c = false) value →
  len value ≤ max_length →
  sanitize_string value max_length = value.
Proof.
  intros Hstrip Hctl Hlen. rewrite sanitize_string_no_cut by done.
  unfold clean. rewrite Hstrip. by apply remove_control_clean.
Qed.

Lemma sanitize_string_identity_witness :
  sanitize_string (lit "Sample Item") 200 = lit "Sample Item".
Proof.
  apply sanitize_string_identity.
  - vm_compute. reflexivity.
  - repeat constructor.
  - vm_compute. discriminate.
Defined.

(** X4: sanitizing a sanitized text only strips it, and the result of that
    second pass is a fixed point: from the second application on,
    [sanitize_string] changes nothing. *)
Theorem sanitize_string_twice (value : pystr) (max_length : Z) :
  0 ≤ max_length →
  sanitize_string (sanitize_string value max_length) max_length
  = strip (sanitize_string value max_length)
  ∧ sanitize_string
      (sanitize_string (sanitize_string value max_length) max_length)
      max_length
    = sanitize_string (sanitize_string value max_length) max_length.
Proof.
  intros Hm. set (s1 := sanitize_string value max_length).
  assert (Hlen1 : len s1 ≤ max_length) by by apply len_sanitize_string.
  assert (Hctl1 : Forall (fun c => is_control c = false) s1)
    by apply sanitize_string_control_free.
  assert (H2 : sanitize_string s1 max_length = strip s1).
  { rewrite sanitize_string_no_cut by done. unfold clean.
    apply remove_control_clean.
    rewrite Forall_forall in Hctl1 |- *. intros c Hc. apply Hctl1.
    eapply elem_of_sublist; [done|apply strip_sublist]. }
  split; [done|]. rewrite H2. apply sanitize_string_fixed.
  - apply strip_strip.
  - rewrite <- H2. apply sanitize_string_control_free.
  - pose proof (sublist_length _ _ (strip_sublist s1)). unfold len in *. lia.
Qed.

Lemma sanitize_string_twice_witness :
  0 ≤ 200
  ∧ sanitize_string (sanitize_string spaced_name 200) 200 = lit "a"
  ∧ sanitize_string spaced_name 200 = lit " a".
Proof.
  split; [lia|]. split; [|vm_compute; reflexivity].
  rewrite (proj1 (sanitize_string_twice spaced_name 200 ltac:(lia))).
  vm_compute. reflexivity.
Defined.

(** ** validate_slug, in terms of the text *)

Section slug_text.

Lemma startswith_spec (p s : pystr) :
  startswith p s = true ↔ ∃ r, s = p ++ r.
Proof.
  revert s. induction p as [|a p IH]; intros s; cbn.
  - split; [eauto|done].
  - destruct s as [|b s]; [split; [done|by intros [? ?]]|].
    rewrite andb_true_iff, N.eqb_eq, IH. split.
    + intros [-> [r ->]]. eauto.
    + intros [r [= -> ->]]. eauto.
Qed.

Lemma contains_spec (p s : pystr) :
  contains p s = true ↔ ∃ l r, s = l ++ p ++ r.
Proof.
  split.
  - induction s as [|c s IH]; cbn; rewrite orb_true_iff.
    + intros [[r Hr]%startswith_spec|?]; [|done]. exists [], r. done.
    + intros [[r Hr]%startswith_spec|(l & r & ->)%IH].
      * exists [], r. done.
      * exists (c :: l), r. done.
  - intros (l & r & ->). induction l as [|c l IH].
    + destruct (p ++ r) eqn:Heq; cbn;
        rewrite orb_true_iff; left; apply startswith_spec; exists r;
        by rewrite <- Heq.
    + cbn. rewrite IH. apply orb_true_r.
Qed.

Lemma startswith_hyphen (v : pystr) :
  startswith (lit "-") v = true ↔ head v = Some 0x2D%N.
Proof.
  rewrite startswith_spec. split.
  - by intros [r ->].
  - destruct v as [|c v]; [done|]. intros [= ->]. by exists v.
Qed.

Lemma endswith_hyphen (v : pystr) :
  endswith (lit "-") v = true ↔ last v = Some 0x2D%N.
Proof.
  unfold endswith. change (reverse (lit "-")) with (lit "-").
  by rewrite startswith_hyphen, head_reverse.
Qed.

Lemma validate_slug_table (v : pystr) :
  (v = [] ∧ validate_slug v = inl SlugEmpty)
  ∨ (v ≠ [] ∧ ¬ slug_shape v ∧ validate_slug v = inl SlugCharset)
  ∨ (slug_shape v ∧ edge_hyphen v ∧ validate_slug v = inl SlugEdgeHyphen)
  ∨ (slug_shape v ∧ ¬ edge_hyphen v ∧ double_hyphen v
     ∧ validate_slug v = inl SlugDoubleHyphen)
  ∨ (slug_shape v ∧ ¬ edge_hyphen v ∧ ¬ double_hyphen v
     ∧ validate_slug v = inr v).
Proof.
  unfold validate_slug, edge_hyphen, double_hyphen.
  case_bool_decide as Hnil; [auto|].
  destruct (re_match_slug v) eqn:Hre; cbn [negb].
  - assert (slug_shape v) by by apply re_match_slug_spec.
    destruct (startswith (lit "-") v) eqn:Hs.
    { apply startswith_hyphen in Hs. auto 7. }
    destruct (endswith (lit "-") v) eqn:He.
    { apply endswith_hyphen in He. auto 7. }
    assert (¬ (head v = Some 0x2D%N ∨ last v = Some 0x2D%N)).
    { rewrite <- startswith_hyphen, <- endswith_hyphen. intros [?|?]; congruence. }
    cbn [orb]. destruct (contains (lit "--") v) eqn:Hc.
    + apply contains_spec in Hc. auto 8.
    + right. right. right. right. split_and!; try done.
      intros Hd. apply contains_spec in Hd.
      change (lit "--") with [0x2D; 0x2D]%N in Hc. congruence.
  - right. left. split_and!; try done.
    intros Hshape%re_match_slug_spec. congruence.
Qed.

End slug_text.

Lemma slug_shape_nonempty (v : pystr) : slug_shape v → v ≠ [].
Proof.
  intros (body & Hne & _ & [->| ->]); [done|]. by destruct body.
Qed.

(** X5: [validate_slug] accepts exactly the texts made of a non-empty run
    of characters of [[a-z0-9-]], optionally followed by one newline, that
    neither start nor end with a hyphen and hold no two hyphens in a row;
    what it accepts it returns unchanged. *)
Theorem validate_slug_accepts (v : pystr) :
  (validate_slug v = inr v ↔
   slug_shape v ∧ ¬ edge_hyphen v ∧ ¬ double_hyphen v)
  ∧ (∀ v', validate_slug v = inr v' → v' = v).
Proof.
  split; [|apply validate_slug_unchanged].
  pose proof (slug_shape_nonempty v) as Hne.
  destruct (validate_slug_table v)
    as [[Hv H]|[(Ha & Hb & H)|[(Ha & Hb & H)|[(Ha & Hb & Hc & H)
                                               |(Ha & Hb & Hc & H)]]]];
    rewrite H; intuition congruence.
Qed.

(** X6: the error [validate_slug] raises, by the checks in their order: the
    empty text; a text that is not of the shape above, whatever its hyphens;
    a text of that shape with a hyphen at an end; a text of that shape with
    two hyphens in a row and none at an end. *)
Theorem validate_slug_error (v : pystr) (e : slug_error) :
  validate_slug v = inl e ↔
  match e with
  | SlugEmpty => v = []
  | SlugCharset => v ≠ [] ∧ ¬ slug_shape v
  | SlugEdgeHyphen => slug_shape v ∧ edge_hyphen v
  | SlugDoubleHyphen => slug_shape v ∧ ¬ edge_hyphen v ∧ double_hyphen v
  end.
Proof.
  pose proof (slug_shape_nonempty v) as Hne.
  destruct (validate_slug_table v)
    as [[Hv H]|[(Ha & Hb & H)|[(Ha & Hb & H)|[(Ha & Hb & Hc & H)
                                               |(Ha & Hb & Hc & H)]]]];
    rewrite H; destruct e; intuition congruence.
Qed.

(** ** The models *)

Section models.

Lemma str_field_name (v : pystr) :
  str_field Fname (Some 1) 200 sanitize_name v
  = if bool_decide (len v < 1) then inl [(Fname, string_too_short)]
    else if bool_decide (len v > 200) then inl [(Fname, string_too_long)]
    else inr (clean v).
Proof.
  unfold str_field, sanitize_name. repeat case_bool_decide; try done.
  by rewrite sanitize_string_no_cut by lia.
Qed.

Lemma str_field_slug (v : pystr) :
  str_field Fslug (Some 1) 100 validate_slug_field v
  = if bool_decide (len v < 1) then inl [(Fslug, string_too_short)]
    else if bool_decide (len v > 100) then inl [(Fslug, string_too_long)]
    else match validate_slug v with
         | inl e => inl [(Fslug, value_error e)]
         | inr _ => inr v
         end.
Proof.
  unfold str_field, validate_slug_field. repeat case_bool_decide; try done.
  destruct (validate_slug v) as [e|v'] eqn:Hv; [done|].
  by apply validate_slug_unchanged in Hv as ->.
Qed.


Lemma len_zero {A} (l : list A) : len l < 1 ↔ l = [].
Proof. unfold len. destruct l; cbn; split; (done || lia). Qed.

End models.




Lemma set_field_name (v : option (option pystr)) :
  ItemUpdate.set_field Fname (Some 1) 200 sanitize_name v
  = match v with
    | Some (Some t) =>
        if bool_decide (len t < 1) then inl [(Fname, string_too_short)]
        else if bool_decide (len t > 200) then inl [(Fname, string_too_long)]
        else inr (Some (Some (clean t)))
    | Some None => inr (Some None)
    | None => inr None
    end.
Proof.
  destruct v as [[t|]|]; try done. unfold ItemUpdate.set_field, opt_str_field.
  rewrite str_field_name. by repeat case_bool_decide.
Qed.



(** ** The service: lookups, frames and order *)

Section service_facts.

(** A successful [create_item], whatever the input and the state. *)
Lemma create_item_Return now data (s : ItemService) item :
  (create_item now data s).1 = Return item →
  _slug_index s !! ItemCreate.slug data = None
  ∧ Item.id item = _next_id s
  ∧ Item.slug item = ItemCreate.slug data
  ∧ Item.created_at item = now ∧ Item.updated_at item = now
  ∧ (create_item now data s).2
    = mk (<[_next_id s := item]> (_items s)) (_next_id s + 1)
         (<[ItemCreate.slug data := _next_id s]> (_slug_index s)).
Proof.
  unfold create_item. case_bool_decide as Hdup; [done|].
  destruct (Item.new _ _ _ _ _ _) as [?|item'] eqn:Hnew; [done|].
  apply Item_new_inr in Hnew as (-> & _). intros [= <-]. cbn.
  split_and!; try done. by apply eq_None_not_Some.
Qed.

(** The counter is not the id of a stored item. *)
Lemma next_id_fresh (s : ItemService) :
  store_inv s → _items s !! _next_id s = None.
Proof.
  intros Hinv. destruct (_items s !! _next_id s) as [it|] eqn:H; [|done].
  apply (inv_items _ Hinv) in H. lia.
Qed.

Lemma get_item_by_slug_Some sl it (s : ItemService) :
  store_inv s →
  get_item_by_slug sl s = Some it ↔
  get_item (Item.id it) s = Some it ∧ Item.slug it = sl.
Proof.
  intros Hinv. unfold get_item_by_slug, get_item. split.
  - destruct (_slug_index s !! sl) as [i|] eqn:Hsl; [|done]. intros Hit.
    destruct (inv_index _ Hinv _ _ Hsl) as (it' & Hit' & <-).
    assert (it' = it) as -> by congruence.
    destruct (inv_items _ Hinv _ _ Hit) as (-> & _). done.
  - intros [Hit <-].
    destruct (inv_items _ Hinv _ _ Hit) as (_ & -> & _). done.
Qed.

Lemma values_insert_fresh (s : ItemService) i item :
  _items s !! i = None →
  (map_to_list (<[i := item]> (_items s))).*2 ≡ₚ item :: values s.
Proof. intros H. unfold values. by rewrite map_to_list_insert. Qed.

Lemma sizes_agree_step s s' :
  store_inv s → sizes_agree s → step s s' → sizes_agree s'.
Proof.
  intros Hinv [Heq Hlt]. destruct 1 as [now data s|now i data s|i s].
  - destruct (create_item now data s).1 as [item|e] eqn:Hc.
    + apply create_item_Return in Hc as (Hfree & _ & _ & _ & _ & ->).
      split; cbn; rewrite !map_size_insert_None; auto using next_id_fresh.
      lia.
    + revert Hc. unfold create_item. case_bool_decide; [done|].
      destruct (Item.new _ _ _ _ _ _); [done|]. done.
  - unfold update_item. destruct (_items s !! i) as [it|] eqn:Hit; [|done].
    split; cbn; rewrite map_size_insert_Some by eauto; done.
  - destruct (_items s !! i) as [it|] eqn:Hit.
    + rewrite (delete_item_stored _ _ _ Hinv Hit).
      destruct (inv_items _ Hinv _ _ Hit) as (_ & Hsl & _).
      split; cbn; rewrite !map_size_delete_Some by eauto; lia.
    + unfold delete_item. by rewrite Hit.
Qed.

Lemma reachable_sizes_agree s : reachable s → sizes_agree s.
Proof.
  unfold reachable. intros H.
  assert (store_inv s ∧ sizes_agree s) as [_ ?]; [|done].
  revert s H. apply rtc_ind_r.
  - split; [apply store_inv_init|]. split; cbn; rewrite !map_size_empty; lia.
  - intros s1 s2 _ Hstep [? ?].
    split; eauto using store_inv_step, sizes_agree_step.
Qed.

End service_facts.

(** X10: in a reachable state [get_item_by_slug] finds exactly the stored
    item that has the slug: it returns an item iff [get_item] returns that
    item under its id and the item has the slug asked for, and it returns
    nothing iff no stored item has that slug. *)
Theorem get_item_by_slug_finds sl (s : ItemService) :
  reachable s →
  (∀ it, get_item_by_slug sl s = Some it ↔
         get_item (Item.id it) s = Some it ∧ Item.slug it = sl)
  ∧ (get_item_by_slug sl s = None ↔
     ∀ i it, get_item i s = Some it → Item.slug it ≠ sl).
Proof.
  intros Hinv%reachable_store_inv.
  split; [intros it; by apply get_item_by_slug_Some|]. split.
  - intros Hnone i it Hit Hsl.
    destruct (inv_items _ Hinv _ _ Hit) as (<- & _).
    assert (get_item_by_slug sl s = Some it); [|congruence].
    by apply get_item_by_slug_Some.
  - intros Hno. destruct (get_item_by_slug sl s) as [it|] eqn:Hget; [|done].
    apply get_item_by_slug_Some in Hget as [Hit Hsl]; [|done].
    by destruct (Hno _ _ Hit).
Qed.

Lemma get_item_by_slug_finds_witness :
  reachable one_item
  ∧ ∃ it, get_item_by_slug (lit "sample-item") one_item = Some it
          ∧ Item.id it = 1
          ∧ get_item 1 one_item = Some it.
Proof.
  split; [apply reachable_one_item|].
  set (it := Item.mk 1 (Some (lit "Sample Item")) (lit "sample-item")
               (Some (lit "A sample item for testing")) 10 10).
  assert (H : get_item_by_slug (lit "sample-item") one_item = Some it).
  { vm_compute. reflexivity. }
  destruct (get_item_by_slug_finds (lit "sample-item") one_item
              reachable_one_item) as [Hfind _].
  exists it. split; [exact H|]. split; [reflexivity|].
  exact (proj1 (proj1 (Hfind it) H)).
Defined.

(** X11: whatever the state, an item that [create_item] returns can be read
    back at once, by its id and by its slug. *)
Theorem create_item_lookups now data (s : ItemService) item :
  (create_item now data s).1 = Return item →
  get_item (Item.id item) (create_item now data s).2 = Some item
  ∧ get_item_by_slug (ItemCreate.slug data) (create_item now data s).2
    = Some item
  ∧ Item.slug item = ItemCreate.slug data.
Proof.
  intros (_ & Hid & Hslug & _ & _ & ->)%create_item_Return.
  unfold get_item, get_item_by_slug. cbn.
  by rewrite Hid, !lookup_insert_eq.
Qed.

Lemma create_item_lookups_witness :
  ∃ item, (create_item 10 sample init).1 = Return item
          ∧ get_item_by_slug (lit "sample-item") one_item = Some item.
Proof.
  eexists. split; [vm_compute; reflexivity|].
  refine (proj1 (proj2 (create_item_lookups 10 sample init _ _))).
  vm_compute. reflexivity.
Defined.

(** X12: in a reachable state a successful [create_item] adds one item and
    touches nothing else: one more item is stored, the counter goes up by
    one, and every other id and every other slug is looked up as before. *)
Theorem create_item_frame now data (s : ItemService) item :
  reachable s →
  (create_item now data s).1 = Return item →
  size (_items (create_item now data s).2) = S (size (_items s))
  ∧ _next_id (create_item now data s).2 = _next_id s + 1
  ∧ get_item (Item.id item) s = None
  ∧ (∀ i, i ≠ Item.id item →
        get_item i (create_item now data s).2 = get_item i s)
  ∧ (∀ sl, sl ≠ ItemCreate.slug data →
        get_item_by_slug sl (create_item now data s).2
        = get_item_by_slug sl s).
Proof.
  intros Hinv%reachable_store_inv
    (Hfree & Hid & _ & _ & _ & ->)%create_item_Return.
  pose proof (next_id_fresh _ Hinv) as Hfresh.
  unfold get_item, get_item_by_slug. cbn. rewrite Hid. split_and!.
  - by apply map_size_insert_None.
  - done.
  - done.
  - intros i Hi. by rewrite lookup_insert_ne.
  - intros sl Hsl. rewrite lookup_insert_ne by done.
    destruct (_slug_index s !! sl) as [i|] eqn:Hi; [|done].
    destruct (inv_index _ Hinv _ _ Hi) as (it & Hit & _).
    apply (inv_items _ Hinv) in Hit. rewrite lookup_insert_ne; [done|lia].
Qed.

Lemma create_item_frame_witness :
  reachable one_item
  ∧ (create_item 11 item_2 one_item).1
    = Return (Item.mk 2 (Some (lit "Item 2")) (lit "item-2") None 11 11)
  ∧ size (_items (create_item 11 item_2 one_item).2) = S (size (_items one_item)).
Proof.
  assert (H : (create_item 11 item_2 one_item).1
              = Return (Item.mk 2 (Some (lit "Item 2")) (lit "item-2") None
                          11 11)).
  { vm_compute. reflexivity. }
  split; [apply reachable_one_item|]. split; [exact H|].
  exact (proj1 (create_item_frame 11 item_2 one_item _ reachable_one_item H)).
Defined.

(** X13: in a reachable state the item just created comes last in the
    listing: the items sorted by id after a successful [create_item] are
    those before it, followed by the new item. *)
Theorem create_item_listed_last now data (s : ItemService) item :
  reachable s →
  (create_item now data s).1 = Return item →
  all_items (create_item now data s).2 = all_items s ++ [item]
  ∧ list_items 0 (len (all_items s) + 1) (create_item now data s).2
    = all_items s ++ [item].
Proof.
  intros Hreach Hret.
  assert (Hreach' : reachable (create_item now data s).2).
  { eapply reachable_step; [done|apply step_create]. }
  pose proof (reachable_store_inv _ Hreach) as Hinv.
  pose proof (reachable_store_inv _ Hreach') as Hinv'.
  assert (Hall : all_items (create_item now data s).2 = all_items s ++ [item]).
  { symmetry. apply (all_items_any_order _ _ Hinv').
    - revert Hinv'.
      apply create_item_Return in Hret as (_ & Hid & _ & _ & _ & ->).
      intros _. unfold values at 1. cbn.
      rewrite values_insert_fresh by by apply next_id_fresh.
      by rewrite all_items_Permutation, Permutation_app_comm.
    - apply StronglySorted_app_2.
      + intros a b Ha ->%list_elem_of_singleton. unfold id_le.
        apply create_item_Return in Hret as (_ & -> & _).
        rewrite all_items_Permutation in Ha.
        apply elem_of_values in Ha; [|done].
        apply (inv_items _ Hinv) in Ha. lia.
      + apply StronglySorted_merge_sort; apply _.
      + repeat constructor. }
  split; [done|]. unfold list_items. rewrite Hall.
  pose proof (len_nonneg (all_items s)).
  rewrite (slice_window _ 0) by lia. cbn [Z.to_nat drop].
  apply take_ge. rewrite length_app. unfold len. cbn. lia.
Qed.

Lemma create_item_listed_last_witness :
  reachable one_item
  ∧ Item.id <$> all_items (create_item 11 item_2 one_item).2 = [1; 2].
Proof.
  split; [apply reachable_one_item|].
  rewrite (proj1 (create_item_listed_last 11 item_2 one_item
             (Item.mk 2 (Some (lit "Item 2")) (lit "item-2") None 11 11)
             reachable_one_item ltac:(vm_compute; reflexivity))).
  vm_compute. reflexivity.
Defined.

(** X14: in a reachable state [delete_item] never raises: it returns
    whether the id was stored.  When it was, one item less is stored and
    every other id and slug is looked up as before; when it was not, nothing
    changes.  Deleting the same id a second time returns [False] and
    changes nothing. *)
Theorem delete_item_outcome item_id (s : ItemService) :
  reachable s →
  (delete_item item_id s).1
  = Return (bool_decide (is_Some (get_item item_id s)))
  ∧ (get_item item_id s = None → (delete_item item_id s).2 = s)
  ∧ (∀ item, get_item item_id s = Some item →
       size (_items (delete_item item_id s).2) = pred (size (_items s))
       ∧ (∀ i, i ≠ item_id →
             get_item i (delete_item item_id s).2 = get_item i s)
       ∧ (∀ sl, sl ≠ Item.slug item →
             get_item_by_slug sl (delete_item item_id s).2
             = get_item_by_slug sl s))
  ∧ _next_id (delete_item item_id s).2 = _next_id s
  ∧ delete_item item_id (delete_item item_id s).2
    = (Return false, (delete_item item_id s).2).
Proof.
  intros Hinv%reachable_store_inv. unfold get_item.
  destruct (_items s !! item_id) as [item|] eqn:Hitem.
  - rewrite (delete_item_stored _ _ _ Hinv Hitem). cbn [fst snd].
    split_and!; try done.
    + intros it [= <-]. unfold get_item_by_slug. cbn. split_and!.
      * apply map_size_delete_Some. eauto.
      * intros i Hi. by rewrite lookup_delete_ne.
      * intros sl Hsl. rewrite lookup_delete_ne by done.
        destruct (_slug_index s !! sl) as [i|] eqn:Hi; [|done].
        rewrite lookup_delete_ne; [done|]. intros <-.
        destruct (inv_index _ Hinv _ _ Hi) as (it & Hit & ?). congruence.
    + unfold delete_item. cbn. by rewrite lookup_delete_eq.
  - unfold delete_item. rewrite Hitem. cbn. rewrite Hitem. done.
Qed.

Lemma delete_item_outcome_witness :
  reachable one_item
  ∧ (delete_item 1 one_item).1 = Return true
  ∧ (delete_item 7 one_item).1 = Return false.
Proof.
  split; [apply reachable_one_item|]. split.
  - rewrite (proj1 (delete_item_outcome 1 one_item reachable_one_item)).
    vm_compute. reflexivity.
  - rewrite (proj1 (delete_item_outcome 7 one_item reachable_one_item)).
    vm_compute. reflexivity.
Defined.

(** X15: pages tile the listing.  For bounds that are not negative, a page
    of [a] items followed by the page of [b] items that starts where it
    ends is the page of [a + b] items, in every state; and a page from 0
    that is as long as the listing is the whole listing. *)
Theorem list_items_pages skip a b (s : ItemService) :
  0 ≤ skip → 0 ≤ a → 0 ≤ b →
  list_items skip a s ++ list_items (skip + a) b s = list_items skip (a + b) s
  ∧ (len (all_items s) ≤ a → list_items 0 a s = all_items s)
  ∧ (len (all_items s) ≤ skip → list_items skip a s = []).
Proof.
  intros Hskip Ha Hb. unfold list_items.
  rewrite !slice_window by lia. split_and!.
  - rewrite Z2Nat.inj_add, <- drop_drop by lia.
    rewrite take_take_drop. f_equal. lia.
  - intros Hlen. cbn [Z.to_nat drop].
    apply take_ge. unfold len in Hlen. lia.
  - intros Hlen. rewrite drop_ge; [by rewrite take_nil|].
    unfold len in Hlen. lia.
Qed.

Lemma list_items_pages_witness :
  Item.id <$> list_items 2 3 ten_items ++ list_items 5 4 ten_items
  = [3; 4; 5; 6; 7; 8; 9].
Proof.
  rewrite fmap_app.
  change (list_items 5 4 ten_items) with (list_items (2 + 3) 4 ten_items).
  rewrite <- fmap_app.
  rewrite (proj1 (list_items_pages 2 3 4 ten_items ltac:(lia) ltac:(lia)
                    ltac:(lia))).
  vm_compute. reflexivity.
Defined.

(** X16: in a reachable state an item that [get_item] returns for an id has
    that id, which is positive and below the counter, and a slug of 1 to
    100 characters that [validate_slug] accepts. *)
Theorem get_item_well_formed i it (s : ItemService) :
  reachable s →
  get_item i s = Some it →
  Item.id it = i ∧ 0 < i < _next_id s
  ∧ 1 ≤ len (Item.slug it) ≤ 100
  ∧ validate_slug (Item.slug it) = inr (Item.slug it).
Proof.
  intros Hinv%reachable_store_inv Hit.
  destruct (inv_items _ Hinv _ _ Hit) as (Hid & _ & Hlt & Hok).
  split; [done|]. split; [done|]. revert Hok. unfold slug_ok.
  rewrite str_field_slug. repeat case_bool_decide; try done.
  destruct (validate_slug (Item.slug it)) as [?|v] eqn:Hv; [done|].
  apply validate_slug_unchanged in Hv as Hv'. subst v. intros _.
  split; [lia|done].
Qed.

Lemma get_item_well_formed_witness :
  reachable one_item
  ∧ ∃ it, get_item 1 one_item = Some it ∧ Item.id it = 1
          ∧ validate_slug (Item.slug it) = inr (Item.slug it).
Proof.
  split; [apply reachable_one_item|]. eexists.
  split; [vm_compute; reflexivity|].
  destruct (get_item_well_formed 1 _ one_item reachable_one_item
              ltac:(vm_compute; reflexivity)) as (Hid & _ & _ & Hslug).
  split; [exact Hid|exact Hslug].
Defined.

(** X17: in a reachable state the slug index has as many entries as there
    are items, and fewer items are stored than ids were handed out: the
    number of items is below the counter. *)
Theorem reachable_sizes (s : ItemService) :
  reachable s →
  size (_slug_index s) = size (_items s)
  ∧ Z.of_nat (size (_items s)) < _next_id s
  ∧ length (all_items s) = size (_items s).
Proof.
  intros [? ?]%reachable_sizes_agree. split_and!; try done.
  rewrite all_items_Permutation. unfold values.
  by rewrite length_fmap, length_map_to_list.
Qed.

Lemma reachable_sizes_witness :
  reachable two_items
  ∧ size (_slug_index two_items) = size (_items two_items)
  ∧ length (all_items two_items) = 2%nat.
Proof.
  split; [apply reachable_two_items|].
  destruct (reachable_sizes two_items reachable_two_items) as (H1 & _ & H3).
  split; [exact H1|]. vm_compute. reflexivity.
Defined.

(** ** Timestamps and names *)

Section clock.

Lemma create_item_Raise now data (s : ItemService) e :
  (create_item now data s).1 = Raise e → (create_item now data s).2 = s.
Proof.
  unfold create_item. case_bool_decide; [done|].
  by destruct (Item.new _ _ _ _ _ _).
Qed.

End clock.

(** X18: as long as the clock never goes back from one call to the next,
    every stored item was updated no earlier than it was created, and no
    later than the last reading of the clock. *)
Theorem timestamps_ordered t i it (s : ItemService) :
  run t s →
  get_item i s = Some it →
  Item.created_at it ≤ Item.updated_at it ∧ Item.updated_at it ≤ t.
Proof.
  unfold get_item. intros Hrun. revert i it.
  induction Hrun as [t|t t' s _ IH Ht|t now data s _ IH Ht
                  |t now item_id data s _ IH Ht|t item_id s _ IH];
    intros i it.
  - cbn. by rewrite lookup_empty.
  - intros Hit%IH. lia.
  - destruct (create_item now data s).1 as [item|e] eqn:Hc.
    + apply create_item_Return in Hc as (_ & _ & _ & Hca & Hua & ->). cbn.
      rewrite lookup_insert. case_decide.
      * intros [= <-]. lia.
      * intros Hit%IH. lia.
    + rewrite (create_item_Raise _ _ _ _ Hc). intros Hit%IH. lia.
  - unfold update_item. destruct (_items s !! item_id) as [item|] eqn:Hitem.
    + cbn. rewrite lookup_insert. case_decide.
      * intros [= <-]. apply IH in Hitem.
        destruct (apply_update_frame data item) as (_ & _ & Hc). cbn in *.
        rewrite Hc. lia.
      * intros Hit%IH. lia.
    + intros Hit%IH. lia.
  - unfold delete_item. destruct (_items s !! item_id) as [item|] eqn:Hitem.
    + cbn. destruct (_slug_index s !! Item.slug item); cbn;
        intros [_ Hit]%lookup_delete_Some; exact (IH _ _ Hit).
    + apply IH.
Qed.

Lemma timestamps_ordered_witness :
  ∃ s it,
    run 20 s ∧ get_item 1 s = Some it
    ∧ Item.created_at it ≤ Item.updated_at it ∧ Item.updated_at it ≤ 20.
Proof.
  exists (update_item 20 1 (ItemUpdate.mk (Some (Some (lit "Updated"))) None)
            one_item).2.
  eexists.
  assert (Hrun : run 20 (update_item 20 1
                   (ItemUpdate.mk (Some (Some (lit "Updated"))) None)
                   one_item).2).
  { apply (run_update 10); [|lia]. apply (run_create 0); [|lia].
    apply run_init. }
  split; [exact Hrun|].
  assert (Hget : get_item 1 (update_item 20 1
                   (ItemUpdate.mk (Some (Some (lit "Updated"))) None)
                   one_item).2
                 = Some (Item.mk 1 (Some (lit "Updated")) (lit "sample-item")
                           (Some (lit "A sample item for testing")) 10 20)).
  { vm_compute. reflexivity. }
  split; [exact Hget|].
  exact (timestamps_ordered 20 1 _ _ Hrun Hget).
Defined.

(** X19: [create_item] can store an item with an empty name.  When the name
    an [ItemCreate] holds is not empty but sanitizes to the empty text (it
    is all whitespace, as [" "] left of ["\x01 \x01"]), the second
    sanitization in [Item] comes after the length check, so the call
    succeeds and the item stored and returned is named [""]. *)
Theorem create_item_stores_empty_name now name slug description data
    (s : ItemService) :
  ItemCreate.new name slug description = inr data →
  ItemCreate.name data ≠ [] →
  sanitize_string (ItemCreate.name data) 200 = [] →
  _slug_index s !! ItemCreate.slug data = None →
  ∃ item,
    (create_item now data s).1 = Return item
    ∧ Item.name item = Some []
    ∧ get_item (Item.id item) (create_item now data s).2 = Some item.
Proof.
  intros Hdata Hne Hblank Hfree.
  rewrite (create_item_fresh_slug now _ _ _ _ s Hdata Hne Hfree).
  eexists. cbn [fst snd]. split; [reflexivity|]. unfold get_item. cbn.
  rewrite lookup_insert_eq, Hblank. done.
Qed.

Lemma create_item_stores_empty_name_witness :
  ItemCreate.new blank_name (lit "ok") None
  = inr (ItemCreate.mk (lit " ") (lit "ok") None)
  ∧ ∃ item,
      (create_item 10 (ItemCreate.mk (lit " ") (lit "ok") None) init).1
      = Return item
      ∧ Item.name item = Some [].
Proof.
  assert (H : ItemCreate.new blank_name (lit "ok") None
              = inr (ItemCreate.mk (lit " ") (lit "ok") None)).
  { vm_compute. reflexivity. }
  split; [exact H|].
  destruct (create_item_stores_empty_name 10 _ _ _ _ init H
              ltac:(vm_compute; discriminate) ltac:(vm_compute; reflexivity)
              ltac:(vm_compute; reflexivity)) as (item & Hc & Hn & _).
  exists item. split; [exact Hc|exact Hn].
Defined.

(** X20: [update_item] can store an empty name too.  A name of 1 to 200
    characters that sanitizes to the empty text (a control character, a
    space) passes [ItemUpdate], which holds [""] for it, and [update_item]
    assigns it to the stored item. *)
Theorem update_item_stores_empty_name now item_id name (s : ItemService) item :
  1 ≤ len name ≤ 200 →
  clean name = [] →
  get_item item_id s = Some item →
  ∃ data item',
    ItemUpdate.new (Some (Some name)) None = inr data
    ∧ (update_item now item_id data s).1 = Some item'
    ∧ Item.name item' = Some []
    ∧ get_item item_id (update_item now item_id data s).2 = Some item'.
Proof.
  intros Hlen Hclean Hitem.
  exists (ItemUpdate.mk (Some (Some [])) None). eexists. split.
  - unfold ItemUpdate.new. rewrite set_field_name.
    rewrite !bool_decide_eq_false_2 by lia. by rewrite Hclean.
  - unfold get_item in *. unfold update_item. rewrite Hitem. cbn.
    by rewrite lookup_insert_eq.
Qed.

Lemma update_item_stores_empty_name_witness :
  ∃ item',
    (update_item 20 1 (ItemUpdate.mk (Some (Some [])) None) one_item).1
    = Some item'
    ∧ Item.name item' = Some []
    ∧ ItemUpdate.new (Some (Some (lit " "))) None
      = inr (ItemUpdate.mk (Some (Some [])) None).
Proof.
  destruct (update_item_stores_empty_name 20 1 (lit " ") one_item
              (Item.mk 1 (Some (lit "Sample Item")) (lit "sample-item")
                 (Some (lit "A sample item for testing")) 10 10)
              ltac:(vm_compute; split; discriminate)
              ltac:(vm_compute; reflexivity)
              ltac:(vm_compute; reflexivity))
    as (data & item' & Hdata & Hupd & Hname & _).
  injection Hdata as <-.
  exists item'. split; [exact Hupd|]. split; [exact Hname|].
  vm_compute. reflexivity.
Defined.

(** X21: [update_item] touches one item only, in every state: the slug
    index, the counter and the set of stored ids stay as they are, every
    other id is looked up as before, a lookup by slug finds an item with the
    same id and slug as before, and for an id that is not stored nothing
    changes and [None] is returned. *)
Theorem update_item_touches_one now item_id data (s : ItemService) :
  _slug_index (update_item now item_id data s).2 = _slug_index s
  ∧ _next_id (update_item now item_id data s).2 = _next_id s
  ∧ dom (_items (update_item now item_id data s).2) = dom (_items s)
  ∧ (∀ i, i ≠ item_id →
        get_item i (update_item now item_id data s).2 = get_item i s)
  ∧ (∀ sl,
        (fun it => (Item.id it, Item.slug it))
          <$> get_item_by_slug sl (update_item now item_id data s).2
        = (fun it => (Item.id it, Item.slug it)) <$> get_item_by_slug sl s)
  ∧ (get_item item_id s = None → update_item now item_id data s = (None, s)).
Proof.
  unfold update_item, get_item, get_item_by_slug.
  destruct (_items s !! item_id) as [item|] eqn:Hitem; [|done]. cbn.
  split_and!; try done.
  - apply dom_insert_lookup_L. eauto.
  - intros i Hi. by rewrite lookup_insert_ne.
  - intros sl. destruct (_slug_index s !! sl) as [i|]; [|done].
    rewrite lookup_insert. case_decide as Hi; [|done]. subst i.
    rewrite Hitem. cbn.
    destruct (apply_update_frame data item) as (Hid & Hslug & _). cbn in *.
    by rewrite Hid, Hslug.
Qed.

(** ** The routes *)

Section routes.

Lemma Item_new_empty_name i slug description c u :
  ∃ errors, Item.new i [] slug description c u = inl errors
            ∧ (Fname, string_too_short) ∈ errors.
Proof.
  unfold Item.new, ItemBase_fields. rewrite str_field_name.
  rewrite bool_decide_eq_true_2 by (by apply len_zero).
  eexists. split; [reflexivity|]. cbn. left.
Qed.

Lemma Api_delete_item_stored item_id item (s : ItemService) :
  store_inv s → _items s !! item_id = Some item →
  Api.delete_item item_id s
  = (Api.Returns tt,
     mk (delete item_id (_items s)) (_next_id s)
        (delete (Item.slug item) (_slug_index s))).
Proof.
  intros Hinv Hitem. unfold Api.delete_item.
  by rewrite (delete_item_stored _ _ _ Hinv Hitem).
Qed.

End routes.

(** X22: the route of [create_item] lets no exception of the service
    through and answers every failure with status 409, leaving the store as
    it was: it returns the item the service returned, or raises
    [HTTPException(409)] whose detail is the text of the service's error,
    be that the duplicate slug or the validation error of the stored
    item. *)
Theorem Api_create_item_conflict now data (s : ItemService) :
  match Api.create_item now data s with
  | (Api.Returns item, s') => create_item now data s = (Return item, s')
  | (Api.Raises (Api.HTTPException status_code d), s') =>
      status_code = 409 ∧ s' = s
      ∧ ∃ e, d = Api.Str e ∧ (create_item now data s).1 = Raise e
             ∧ (e = DuplicateSlug (ItemCreate.slug data)
                ∨ ∃ errors, e = ValidationError errors)
  | (Api.Raises (Api.Uncaught _), _) => False
  end.
Proof.
  unfold Api.create_item, create_item.
  case_bool_decide; cbn; [eauto 10|].
  destruct (Item.new _ _ _ _ _ _) as [errors|item]; cbn; [eauto 10|done].
Qed.

(** X23: an [ItemCreate] whose name is empty (what input validation leaves
    of a name of control characters) and whose slug is not indexed is
    answered by the route with status 409, the status of a duplicate slug,
    although no slug is duplicated: the detail is the validation error of
    the name, and the store is unchanged. *)
Theorem Api_create_item_empty_name now data (s : ItemService) :
  ItemCreate.name data = [] →
  _slug_index s !! ItemCreate.slug data = None →
  ∃ errors,
    Api.create_item now data s
    = (Api.Raises (Api.HTTPException 409 (Api.Str (ValidationError errors))),
       s)
    ∧ (Fname, string_too_short) ∈ errors.
Proof.
  intros Hname Hfree. unfold Api.create_item, create_item.
  rewrite Hfree, bool_decide_eq_false_2 by (by intros [? ?]). rewrite Hname.
  destruct (Item_new_empty_name (_next_id s) (ItemCreate.slug data)
              (ItemCreate.description data) now now) as (errors & -> & Hin).
  exists errors. done.
Qed.

Lemma Api_create_item_empty_name_witness :
  ItemCreate.new [0x01%N] (lit "ok") None = inr (ItemCreate.mk [] (lit "ok") None)
  ∧ ∃ errors,
      Api.create_item 10 (ItemCreate.mk [] (lit "ok") None) init
      = (Api.Raises (Api.HTTPException 409 (Api.Str (ValidationError errors))),
         init).
Proof.
  split; [vm_compute; reflexivity|].
  destruct (Api_create_item_empty_name 10 (ItemCreate.mk [] (lit "ok") None)
              init ltac:(reflexivity) ltac:(vm_compute; reflexivity))
    as (errors & H & _).
  exists errors. exact H.
Defined.

(** X24: after the route of [create_item] has returned an item, in any
    state, the routes of [get_item] and [get_item_by_slug] return that item
    for its id and its slug, and the route of [create_item] answers a second
    request with the same slug with status 409 for the duplicate slug,
    without changing the store. *)
Theorem Api_create_then_get now data (s s' : ItemService) item :
  Api.create_item now data s = (Api.Returns item, s') →
  Api.get_item (Item.id item) s' = Api.Returns item
  ∧ Api.get_item_by_slug (ItemCreate.slug data) s' = Api.Returns item
  ∧ ∀ now' data',
      ItemCreate.slug data' = ItemCreate.slug data →
      Api.create_item now' data' s'
      = (Api.Raises (Api.HTTPException 409
                       (Api.Str (DuplicateSlug (ItemCreate.slug data)))),
         s').
Proof.
  intros Hroute.
  assert (Hc : create_item now data s = (Return item, s')).
  { revert Hroute. unfold Api.create_item.
    destruct (create_item now data s) as [[item0|e] s0]; [congruence|].
    by destruct (Api.is_ValueError e). }
  assert (Hret : (create_item now data s).1 = Return item) by by rewrite Hc.
  assert (Hget : get_item (Item.id item) s' = Some item
                 ∧ get_item_by_slug (ItemCreate.slug data) s' = Some item).
  { apply create_item_Return in Hret as (_ & Hid & _ & _ & _ & Hst).
    rewrite Hc in Hst. cbn in Hst. subst s'.
    unfold get_item, get_item_by_slug. cbn.
    by rewrite Hid, !lookup_insert_eq. }
  destruct Hget as [Hget Hslug].
  unfold Api.get_item, Api.get_item_by_slug. rewrite Hget, Hslug.
  split_and!; try done. intros now' data' Heq.
  unfold Api.create_item, create_item. rewrite Heq.
  rewrite bool_decide_eq_true_2; [done|].
  revert Hslug. unfold get_item_by_slug.
  destruct (_slug_index s' !! ItemCreate.slug data); [eauto|done].
Qed.

Lemma Api_create_then_get_witness :
  ∃ item,
    Api.create_item 10 sample init = (Api.Returns item, one_item)
    ∧ Api.get_item 1 one_item = Api.Returns item
    ∧ Api.get_item_by_slug (lit "sample-item") one_item = Api.Returns item.
Proof.
  set (item := Item.mk 1 (Some (lit "Sample Item")) (lit "sample-item")
                 (Some (lit "A sample item for testing")) 10 10).
  assert (H : Api.create_item 10 sample init = (Api.Returns item, one_item)).
  { vm_compute. reflexivity. }
  exists item. split; [exact H|].
  destruct (Api_create_then_get 10 sample init one_item item H)
    as (Hget & Hslug & _).
  split; [exact Hget|exact Hslug].
Defined.

(** X25: in a reachable state the route of [delete_item] raises nothing but
    the 404 of an id that is not stored.  For a stored id it returns, and
    afterwards the routes of [get_item] on the id, of [get_item_by_slug] on
    the slug of the deleted item and of [delete_item] on the id all answer
    404, the last without changing the store. *)
Theorem Api_delete_then_not_found item_id (s : ItemService) :
  reachable s →
  (get_item item_id s = None →
   Api.delete_item item_id s = (Api.not_found, s))
  ∧ (∀ item, get_item item_id s = Some item →
       (Api.delete_item item_id s).1 = Api.Returns tt
       ∧ Api.get_item item_id (Api.delete_item item_id s).2 = Api.not_found
       ∧ Api.get_item_by_slug (Item.slug item) (Api.delete_item item_id s).2
         = Api.not_found
       ∧ Api.delete_item item_id (Api.delete_item item_id s).2
         = (Api.not_found, (Api.delete_item item_id s).2)).
Proof.
  intros Hinv%reachable_store_inv. unfold get_item. split.
  - intros Hnone. unfold Api.delete_item, delete_item. by rewrite Hnone.
  - intros item Hitem. rewrite (Api_delete_item_stored _ _ _ Hinv Hitem).
    cbn [fst snd]. unfold Api.get_item, Api.get_item_by_slug, Api.delete_item,
      get_item, get_item_by_slug, delete_item. cbn.
    by rewrite !lookup_delete_eq.
Qed.

Lemma Api_delete_then_not_found_witness :
  reachable one_item
  ∧ (Api.delete_item 1 one_item).1 = Api.Returns tt
  ∧ Api.get_item 1 (Api.delete_item 1 one_item).2 = Api.not_found.
Proof.
  split; [apply reachable_one_item|].
  destruct (proj2 (Api_delete_then_not_found 1 one_item reachable_one_item)
              (Item.mk 1 (Some (lit "Sample Item")) (lit "sample-item")
                 (Some (lit "A sample item for testing")) 10 10)
              ltac:(vm_compute; reflexivity)) as (H1 & H2 & _).
  split; [exact H1|exact H2].
Defined.

(** X26: the route of [update_item] answers 404 exactly for an id that is
    not stored, and then changes nothing; for a stored id it returns the
    updated item, which keeps its id, slug and creation time, and which the
    route of [get_item] returns from then on. *)
Theorem Api_update_item_route now item_id data (s : ItemService) :
  ((Api.update_item now item_id data s).1 = Api.not_found ↔
   get_item item_id s = None)
  ∧ (get_item item_id s = None →
     Api.update_item now item_id data s = (Api.not_found, s))
  ∧ (∀ item, get_item item_id s = Some item →
       ∃ item',
         (Api.update_item now item_id data s).1 = Api.Returns item'
         ∧ Api.get_item item_id (Api.update_item now item_id data s).2
           = Api.Returns item'
         ∧ Item.id item' = Item.id item
         ∧ Item.slug item' = Item.slug item
         ∧ Item.created_at item' = Item.created_at item
         ∧ Item.updated_at item' = now).
Proof.
  unfold Api.update_item, Api.get_item, update_item, get_item.
  destruct (_items s !! item_id) as [item|] eqn:Hitem; cbn.
  - split_and!; [split; discriminate|discriminate|].
    intros ? [= <-]. eexists. split; [reflexivity|].
    rewrite lookup_insert_eq. split; [reflexivity|].
    destruct (apply_update_frame data item) as (? & ? & ?). done.
  - split_and!; try done.
Qed.
